(** * garlic/pkg/di: a shallow embedding of the dependency-injection container

    The development follows the package file by file:
    - [reflect]          the part of Go's runtime type descriptors the package consumes
    - [lifetime.go]      [Lifetime], [knownLifetimes]
    - errors             the typed errors of [registry.go], [resolve.go], [root_provider.go]
    - [default_factory.go]  [getDefaultFactory] and its struct and pointer cases
    - [registry.go]      [RegisterType], [RegisterFactory], [BuildRootProvider]
    - [instance_map.go]  the memoising [instanceMap]
    - [root_provider.go], [scope.go]  [RootProvider.Resolve], [Scope.Resolve], [NewScope]
    - [resolve.go]       the typed facade [Resolve]

    Go values that are references (maps, pointers to [instanceMap]) live in an
    explicit store, so that aliasing is visible; a [sync.RWMutex] is a flag in
    that store and acquiring a held lock is the outcome [Deadlock]. *)

From Stdlib Require Import ZArith Lia.
From stdpp Require Import base option countable gmap list strings.

Set Default Proof Using "Type".
Set Warnings "-register-all".
Open Scope Z_scope.

(** ** reflect: kinds and type descriptors *)

(** [reflect.Kind]. *)
Inductive Kind :=
  | Invalid | Bool
  | Int | Int8 | Int16 | Int32 | Int64
  | Uint | Uint8 | Uint16 | Uint32 | Uint64 | Uintptr
  | Float32 | Float64 | Complex64 | Complex128
  | Array | Chan | Func | Interface | Map | Pointer | Slice | String | Struct
  | UnsafePointer.

Global Instance Kind_eq_dec : EqDecision Kind.
Proof. solve_decision. Defined.

(** The kinds whose types have no component types. *)
Inductive basic :=
  | BBool
  | BInt | BInt8 | BInt16 | BInt32 | BInt64
  | BUint | BUint8 | BUint16 | BUint32 | BUint64 | BUintptr
  | BFloat32 | BFloat64 | BComplex64 | BComplex128
  | BString | BUnsafePointer.

Global Instance basic_eq_dec : EqDecision basic.
Proof. solve_decision. Defined.

Definition basic_kind (b : basic) : Kind :=
  match b with
  | BBool => Bool
  | BInt => Int | BInt8 => Int8 | BInt16 => Int16 | BInt32 => Int32 | BInt64 => Int64
  | BUint => Uint | BUint8 => Uint8 | BUint16 => Uint16 | BUint32 => Uint32
  | BUint64 => Uint64 | BUintptr => Uintptr
  | BFloat32 => Float32 | BFloat64 => Float64
  | BComplex64 => Complex64 | BComplex128 => Complex128
  | BString => String | BUnsafePointer => UnsafePointer
  end.

Definition basic_index (b : basic) : nat :=
  match b with
  | BBool => 0
  | BInt => 1 | BInt8 => 2 | BInt16 => 3 | BInt32 => 4 | BInt64 => 5
  | BUint => 6 | BUint8 => 7 | BUint16 => 8 | BUint32 => 9
  | BUint64 => 10 | BUintptr => 11
  | BFloat32 => 12 | BFloat64 => 13
  | BComplex64 => 14 | BComplex128 => 15
  | BString => 16 | BUnsafePointer => 17
  end%nat.

Definition basic_of_index (n : nat) : option basic :=
  match n with
  | 0 => Some BBool
  | 1 => Some BInt | 2 => Some BInt8 | 3 => Some BInt16 | 4 => Some BInt32
  | 5 => Some BInt64
  | 6 => Some BUint | 7 => Some BUint8 | 8 => Some BUint16 | 9 => Some BUint32
  | 10 => Some BUint64 | 11 => Some BUintptr
  | 12 => Some BFloat32 | 13 => Some BFloat64
  | 14 => Some BComplex64 | 15 => Some BComplex128
  | 16 => Some BString | 17 => Some BUnsafePointer
  | _ => None
  end%nat.

Global Instance basic_countable : Countable basic.
Proof.
  refine (inj_countable basic_index basic_of_index _).
  intros []; reflexivity.
Defined.

(** [reflect.Type]: a type descriptor.  Interface, function and struct types
    are identified by name; what the runtime knows about a named type (the
    fields of a struct, the method sets) is supplied by the environment, see
    [StructFields] and [Implements] below. *)
Inductive rtype :=
  | TBasic (b : basic)
  | TArray (len : nat) (elem : rtype)
  | TChan (elem : rtype)
  | TFunc (name : string)
  | TInterface (name : string)
  | TMap (key elem : rtype)
  | TPointer (elem : rtype)
  | TSlice (elem : rtype)
  | TStruct (name : string).

Global Instance rtype_eq_dec : EqDecision rtype.
Proof. solve_decision. Defined.

Fixpoint rtype_encode (t : rtype) : gen_tree (basic + (nat + string)) :=
  match t with
  | TBasic b => GenLeaf (inl b)
  | TArray n e => GenNode 0 [GenLeaf (inr (inl n)); rtype_encode e]
  | TChan e => GenNode 1 [rtype_encode e]
  | TFunc s => GenNode 2 [GenLeaf (inr (inr s))]
  | TInterface s => GenNode 3 [GenLeaf (inr (inr s))]
  | TMap k e => GenNode 4 [rtype_encode k; rtype_encode e]
  | TPointer e => GenNode 5 [rtype_encode e]
  | TSlice e => GenNode 6 [rtype_encode e]
  | TStruct s => GenNode 7 [GenLeaf (inr (inr s))]
  end.

Fixpoint rtype_decode (g : gen_tree (basic + (nat + string))) : option rtype :=
  match g with
  | GenLeaf (inl b) => Some (TBasic b)
  | GenNode 0 [GenLeaf (inr (inl n)); e] => TArray n <$> rtype_decode e
  | GenNode 1 [e] => TChan <$> rtype_decode e
  | GenNode 2 [GenLeaf (inr (inr s))] => Some (TFunc s)
  | GenNode 3 [GenLeaf (inr (inr s))] => Some (TInterface s)
  | GenNode 4 [k; e] => k' ← rtype_decode k; TMap k' <$> rtype_decode e
  | GenNode 5 [e] => TPointer <$> rtype_decode e
  | GenNode 6 [e] => TSlice <$> rtype_decode e
  | GenNode 7 [GenLeaf (inr (inr s))] => Some (TStruct s)
  | _ => None
  end.

Lemma rtype_decode_encode (t : rtype) : rtype_decode (rtype_encode t) = Some t.
Proof.
  induction t as [b|n e IH|e IH|s|s|k IHk e IHe|e IH|e IH|s]; simpl;
    rewrite ?IH, ?IHk, ?IHe; reflexivity.
Qed.

Global Instance rtype_countable : Countable rtype :=
  inj_countable rtype_encode rtype_decode rtype_decode_encode.

(** [Type.Kind]. *)
Definition kindOf (t : rtype) : Kind :=
  match t with
  | TBasic b => basic_kind b
  | TArray _ _ => Array
  | TChan _ => Chan
  | TFunc _ => Func
  | TInterface _ => Interface
  | TMap _ _ => Map
  | TPointer _ => Pointer
  | TSlice _ => Slice
  | TStruct _ => Struct
  end.

(** [Type.Elem]: defined for array, channel, map, pointer and slice types
    (the Go method panics on the others). *)
Definition Elem (t : rtype) : option rtype :=
  match t with
  | TArray _ e | TChan e | TMap _ e | TPointer e | TSlice e => Some e
  | _ => None
  end.

(** [reflect.StructField], with the two members the package reads and the
    package path that decides [IsExported]. *)
Record StructField := {
  Name : string;
  PkgPath : string;
  Type_ : rtype;
}.

(** [StructField.IsExported]: the package path is empty. *)
Definition IsExported (f : StructField) : bool :=
  bool_decide (PkgPath f = EmptyString).

(** ** lifetime.go *)

(** [type Lifetime int]. *)
Definition Lifetime := Z.

(** [Transient Lifetime = iota + 1], then [Scoped], then [Singleton]. *)
Definition Transient : Lifetime := 1.
Definition Scoped : Lifetime := 2.
Definition Singleton : Lifetime := 3.

Definition knownLifetimes : gmap Z string :=
  <[Transient := "Transient"%string]>
  (<[Scoped := "Scoped"%string]>
  (<[Singleton := "Singleton"%string]> ∅)).

(** ** The errors of the package *)

(** The sentinel values made with [errors.New] and the typed errors.  A
    [Returned] type of [None] is the nil [reflect.Type] that [reflect.TypeOf]
    gives for a nil interface value.  [errorsNew] stands for the errors of
    client code. *)
Inductive error :=
  | ErrNilResolver
  | ErrResolverError
  | ErrInvalidResolution
  | ErrNonConcreteImplementation
  | ErrInvalidImplementation
  | ErrUndefinedLifetime
  | ErrUnsharableType
  | ErrNoDefaultFactory
  | ErrNilFactory
  | ErrUnknownType
  | ErrScopedValueRequestedFromRootProvider
  | resolverError (wrapped : error)
  | InvalidResolution (Requested : rtype) (Returned : option rtype)
  | NonConcreteImplementation (typ : rtype)
  | InvalidImplementation (typ target : rtype)
  | UndefinedLifetime (value : Lifetime)
  | UnsharableType (typ : rtype) (lifetime : Lifetime)
  | NoDefaultFactory (typ : rtype)
  | UnknownType (typ : rtype)
  | ScopedValueRequestedFromRootProvider (typ : rtype)
  | errorsNew (msg : string).

Global Instance error_eq_dec : EqDecision error.
Proof. solve_decision. Defined.

(** The [Is] methods: each typed error is its sentinel. *)
Definition error_Is (err target : error) : bool :=
  match err with
  | resolverError _ => bool_decide (target = ErrResolverError)
  | InvalidResolution _ _ => bool_decide (target = ErrInvalidResolution)
  | NonConcreteImplementation _ => bool_decide (target = ErrNonConcreteImplementation)
  | InvalidImplementation _ _ => bool_decide (target = ErrInvalidImplementation)
  | UndefinedLifetime _ => bool_decide (target = ErrUndefinedLifetime)
  | UnsharableType _ _ => bool_decide (target = ErrUnsharableType)
  | NoDefaultFactory _ => bool_decide (target = ErrNoDefaultFactory)
  | UnknownType _ => bool_decide (target = ErrUnknownType)
  | ScopedValueRequestedFromRootProvider _ =>
      bool_decide (target = ErrScopedValueRequestedFromRootProvider)
  | _ => false
  end.

(** [errors.Is]: equality, then the [Is] method, then the [Unwrap] chain
    (only [resolverError] has an [Unwrap] method). *)
Fixpoint errorsIs (err target : error) : bool :=
  bool_decide (err = target) || error_Is err target ||
  match err with
  | resolverError wrapped => errorsIs wrapped target
  | _ => false
  end.

(** ** Values of type [any] *)

(** A value stored in an interface: [Nil] is the nil interface, every other
    value carries its dynamic type.  [Zero t] is the zero value of the
    non-interface type [t]; [Ref t a] is a non-nil pointer, map or channel of
    type [t] whose storage is cell [a] of the heap, so two references are the
    same instance exactly when they are equal. *)
Inductive any :=
  | Nil
  | Zero (t : rtype)
  | Ref (t : rtype) (a : nat)
  | StructV (t : rtype) (fields : list any)
  | Scalar (t : rtype) (z : Z).

(** [reflect.TypeOf]. *)
Definition TypeOf (v : any) : option rtype :=
  match v with
  | Nil => None
  | Zero t | Ref t _ | StructV t _ | Scalar t _ => Some t
  end.

(** The zero value of a variable of static type [t], seen as [any]: a nil
    interface when [t] is an interface type. *)
Definition zeroValue (t : rtype) : any :=
  match kindOf t with
  | Interface => Nil
  | _ => Zero t
  end.

(** ** Factories *)

(** The body of a [func(Resolver) (any, error)].  What such a function can do
    to the container is call [Resolve] on the resolver it was given; besides
    that it allocates, reads and writes memory of its own, returns, or
    panics. *)
Inductive prog :=
  | Return (v : any) (err : option error)
  | CallResolve (typ : rtype) (k : any → option error → prog)
  | AllocCell (v : any) (k : nat → prog)
  | LoadCell (a : nat) (k : any → prog)
  | StoreCell (a : nat) (v : any) (k : prog)
  | PanicP.

(** Sequencing of two bodies: [v, err := p(r); return k(v, err)(r)]. *)
Fixpoint andThen (p : prog) (k : any → option error → prog) : prog :=
  match p with
  | Return v err => k v err
  | CallResolve typ k' => CallResolve typ (λ v err, andThen (k' v err) k)
  | AllocCell v k' => AllocCell v (λ a, andThen (k' a) k)
  | LoadCell a k' => LoadCell a (λ v, andThen (k' v) k)
  | StoreCell a v k' => StoreCell a v (andThen k' k)
  | PanicP => PanicP
  end.

(** [type factoryFunc func(Resolver) (any, error)]. *)
Definition factoryFunc := prog.

(** [type registration struct]. *)
Record registration := {
  lifetime : Lifetime;
  factory : factoryFunc;
}.

(** ** The store *)

(** [type instanceMap struct]: [mu] is held for writing or free (read locks
    are taken and released inside [get] only); [instances] is nil until the
    first instance is saved. *)
Record instanceMap := {
  mu : bool;
  instances : option (gmap rtype any);
}.

(** The mutable objects of a run: the cells allocated by factories, the
    registration maps made by [addRegistration], the [instanceMap]s made by
    [BuildRootProvider] and [NewScope].  [invoked] is instrumentation: the
    types whose registered factory was called, latest first; no operation of
    the package reads it. *)
Record world := {
  heap : list any;
  registries : list (gmap rtype registration);
  instanceMaps : list instanceMap;
  invoked : list rtype;
}.

Inductive outcome (A : Type) :=
  | Done (a : A) (w : world)
  | Deadlock
  | Panicked
  | OutOfFuel.
Arguments Done {A} a w.
Arguments Deadlock {A}.
Arguments Panicked {A}.
Arguments OutOfFuel {A}.

(** Computations on the store. *)
Definition M (A : Type) : Type := world → outcome A.

Definition ret {A} (a : A) : M A := λ w, Done a w.

Definition bind {A B} (m : M A) (k : A → M B) : M B :=
  λ w, match m w with
       | Done a w' => k a w'
       | Deadlock => Deadlock
       | Panicked => Panicked
       | OutOfFuel => OutOfFuel
       end.

Notation "x <- m ;; k" := (bind m (λ x, k))
  (at level 100, m at next level, right associativity).
Notation "m ;;; k" := (bind m (λ _, k))
  (at level 100, right associativity).

(** A Go result pair [(any, error)]. *)
Definition result : Type := any * option error.

(** Lookup in a Go map that may be nil. *)
Definition mapLookup {V} (m : option (gmap rtype V)) (k : rtype) : option V :=
  m ≫= (.!! k).

(** ** What the runtime knows about named types *)

Section Container.

(** [Type.NumField] and [Type.Field]: the fields of a struct type, in
    declaration order. *)
Variable StructFields : string → list StructField.

(** Whether the method set of a type satisfies an interface type. *)
Variable Implements : rtype → rtype → bool.

Definition fieldsOf (typ : rtype) : list StructField :=
  match typ with
  | TStruct name => StructFields name
  | _ => []
  end.

(** [Type.AssignableTo]: identical types, or an interface that the type
    implements. *)
Definition AssignableTo (t u : rtype) : bool :=
  bool_decide (t = u) ||
  (bool_decide (kindOf u = Interface) && Implements t u).

(** The type assertion [v.(T)], its [ok] result: a nil interface never
    passes; for an interface type [T] the dynamic type must implement it, for
    any other [T] the dynamic type must be [T]. *)
Definition typeAssert (v : any) (T : rtype) : bool :=
  match TypeOf v with
  | None => false
  | Some d =>
      if bool_decide (kindOf T = Interface) then Implements d T
      else bool_decide (d = T)
  end.

(** ** default_factory.go *)

(** Calling a function value: a nil function panics. *)
Definition call (f : option factoryFunc) : prog :=
  match f with
  | Some body => body
  | None => PanicP
  end.

(** The loop of [getDefaultStructFactory], from field [i] on: [fields] are the
    fields [i], [i+1], ... of [typ] and [val] the fields of the struct built
    so far. *)
Fixpoint structFieldsLoop (typ : rtype) (fields : list StructField) (i : nat)
    (val : list any) : prog :=
  match fields with
  | [] => Return (StructV typ val) None
  | field :: rest =>
      if negb (IsExported field) then structFieldsLoop typ rest (S i) val
      else
        CallResolve (Type_ field) (λ resolved err,
          match err with
          | Some e => Return Nil (Some (resolverError e))
          | None =>
              let resolvedType := TypeOf resolved in
              if match resolvedType with
                 | None => true
                 | Some rt => negb (AssignableTo rt (Type_ field))
                 end
              then Return Nil
                     (Some (InvalidResolution (Type_ field) (TypeOf resolved)))
              else structFieldsLoop typ rest (S i) (<[i := resolved]> val)
          end)
  end.

(** [getDefaultStructFactory]: [reflect.New(typ)] is the struct with every
    field at its zero value. *)
Definition getDefaultStructFactory (typ : rtype)
    : option factoryFunc * option error :=
  (Some (structFieldsLoop typ (fieldsOf typ) 0
           (map (λ f, zeroValue (Type_ f)) (fieldsOf typ))),
   None).

(** [getDefaultPointerFactory] after its first line: [res] is the result of
    [getDefaultFactory(typ.Elem())] and [elem] is [typ.Elem()]. *)
Definition pointerFactoryFrom (typ elem : rtype)
    (res : option factoryFunc * option error)
    : option factoryFunc * option error :=
  let '(elemFactory, err) := res in
  match err with
  | Some e =>
      if errorsIs e ErrNoDefaultFactory then (None, Some (NoDefaultFactory typ))
      else (None, Some e)
  | None =>
      (Some (andThen (call elemFactory) (λ v err,
         match err with
         | Some e => Return Nil (Some e)
         | None =>
             AllocCell (zeroValue elem) (λ pVal,
               (* pVal.Elem().Set(reflect.ValueOf(v)) panics unless [v] has
                  a type assignable to the element type *)
               match TypeOf v with
               | Some vt =>
                   if AssignableTo vt elem
                   then StoreCell pVal v (Return (Ref typ pVal) None)
                   else PanicP
               | None => PanicP
               end)
         end)),
       None)
  end.

(** [getDefaultFactory].  The recursion of the source goes through
    [getDefaultPointerFactory] and [typ.Elem()]; here the pointer case is
    taken first so that the recursion is structural, and
    [getDefaultFactory_eq] below gives back the [switch typ.Kind()] of the
    source. *)
Fixpoint getDefaultFactory (typ : rtype) : option factoryFunc * option error :=
  match typ with
  | TPointer elem => pointerFactoryFrom typ elem (getDefaultFactory elem)
  | _ =>
      match kindOf typ with
      | Bool
      | Int | Int8 | Int16 | Int32 | Int64
      | Uint | Uint8 | Uint16 | Uint32 | Uint64
      | Float32 | Float64
      | Complex64 | Complex128
      | Array
      | String
      | Slice => (Some (Return (Zero typ) None), None)
      | Map => (Some (AllocCell (Zero typ) (λ a, Return (Ref typ a) None)), None)
      | Chan => (Some (AllocCell (Zero typ) (λ a, Return (Ref typ a) None)), None)
      | Struct => getDefaultStructFactory typ
      | _ => (None, Some (NoDefaultFactory typ))
      end
  end.

(** [getDefaultPointerFactory]. *)
Definition getDefaultPointerFactory (typ : rtype)
    : option factoryFunc * option error :=
  match Elem typ with
  | Some elem => pointerFactoryFrom typ elem (getDefaultFactory elem)
  | None => (None, None)
  end.

(** [GetDefaultFactory[T]]: the untyped factory followed by [v.(T)]. *)
Definition GetDefaultFactory (T : rtype) : option factoryFunc * option error :=
  let '(factory, err) := getDefaultFactory T in
  match err with
  | Some e => (None, Some e)
  | None =>
      (Some (andThen (call factory) (λ v err,
         match err with
         | Some e => Return (zeroValue T) (Some e)
         | None => if typeAssert v T then Return v None else PanicP
         end)),
       None)
  end.

(** ** registry.go *)

(** [type Registry struct]: the map is nil or a reference into
    [registries]. *)
Record Registry := {
  registrations : option nat;
}.

(** [type RootProvider struct].  [provider_registrations] is the map made by
    [maps.Clone]: no other value refers to it and nothing writes to it, so it
    is held by value; [singletons] points into [instanceMaps]. *)
Record RootProvider := {
  provider_registrations : option (gmap rtype registration);
  singletons : nat;
}.

Definition isConcrete (typ : rtype) : bool :=
  negb (bool_decide (kindOf typ = Interface)).

Definition isSharable (typ : rtype) : bool :=
  let kind := kindOf typ in
  if bool_decide (kind = Pointer) then true
  else if bool_decide (kind = Chan) then true
  else false.

Definition validateRegistrationTypes (target impl : rtype) : option error :=
  if negb (isConcrete impl) then Some (NonConcreteImplementation impl)
  else if negb (AssignableTo impl target)
  then Some (InvalidImplementation impl target)
  else None.

Definition validateLifetime (impl : rtype) (lifetime : Lifetime) : option error :=
  match knownLifetimes !! lifetime with
  | None => Some (UndefinedLifetime lifetime)
  | Some _ =>
      if negb (bool_decide (lifetime = Transient)) && negb (isSharable impl)
      then Some (UnsharableType impl lifetime)
      else None
  end.

(** [make(map[reflect.Type]registration, 0)]. *)
Definition makeRegistrations : M nat :=
  λ w, Done (length (registries w))
         {| heap := heap w;
            registries := registries w ++ [∅];
            instanceMaps := instanceMaps w;
            invoked := invoked w |}.

(** [m[target] = registration_] on the map at [l]. *)
Definition setRegistration (l : nat) (target : rtype) (registration_ : registration)
    : M unit :=
  λ w, match registries w !! l with
       | None => Panicked
       | Some m =>
           Done tt
             {| heap := heap w;
                registries := <[l := <[target := registration_]> m]> (registries w);
                instanceMaps := instanceMaps w;
                invoked := invoked w |}
       end.

(** [addRegistration]: the registry is passed by value, its map by
    reference. *)
Definition addRegistration (registry : Registry) (target : rtype)
    (registration_ : registration) : M Registry :=
  registry' <- match registrations registry with
               | None => l <- makeRegistrations ;; ret {| registrations := Some l |}
               | Some _ => ret registry
               end ;;
  match registrations registry' with
  | Some l => setRegistration l target registration_ ;;; ret registry'
  | None => λ _, Panicked
  end.

(** [RegisterFactory[Target, Impl]]; the type parameters are the descriptors
    [target] and [impl], and a nil [factory] is [None]. *)
Definition RegisterFactory (target impl : rtype) (registry : Registry)
    (lifetime : Lifetime) (factory : option factoryFunc)
    : M (Registry * option error) :=
  match validateRegistrationTypes target impl with
  | Some err => ret (registry, Some err)
  | None =>
      match validateLifetime impl lifetime with
      | Some err => ret (registry, Some err)
      | None =>
          match factory with
          | None => ret (registry, Some ErrNilFactory)
          | Some body =>
              registry' <- addRegistration registry target
                             {| lifetime := lifetime; factory := body |} ;;
              ret (registry', None)
          end
      end
  end.

(** [RegisterType[Target, Impl]]. *)
Definition RegisterType (target impl : rtype) (registry : Registry)
    (lifetime : Lifetime) : M (Registry * option error) :=
  let '(factory, err) := GetDefaultFactory impl in
  match err with
  | Some e => ret (registry, Some e)
  | None => RegisterFactory target impl registry lifetime factory
  end.

(** [&instanceMap{}]. *)
Definition newInstanceMap : M nat :=
  λ w, Done (length (instanceMaps w))
         {| heap := heap w;
            registries := registries w;
            instanceMaps := instanceMaps w ++ [{| mu := false; instances := None |}];
            invoked := invoked w |}.

(** [maps.Clone(r.registrations)]: nil for a nil map. *)
Definition cloneRegistrations (r : Registry)
    : M (option (gmap rtype registration)) :=
  λ w, match registrations r with
       | None => Done None w
       | Some l =>
           match registries w !! l with
           | None => Panicked
           | Some m => Done (Some m) w
           end
       end.

(** [Registry.BuildRootProvider]. *)
Definition BuildRootProvider (r : Registry) : M (RootProvider * option error) :=
  regs <- cloneRegistrations r ;;
  m <- newInstanceMap ;;
  ret ({| provider_registrations := regs; singletons := m |}, None).

(** ** Running a factory *)

(** [type Resolver interface]: the method [Resolve] of a non-nil resolver. *)
Definition Resolver : Type := rtype → M result.

Definition withHeap (h : list any) (w : world) : world :=
  {| heap := h; registries := registries w;
     instanceMaps := instanceMaps w; invoked := invoked w |}.

Definition withInstanceMaps (ms : list instanceMap) (w : world) : world :=
  {| heap := heap w; registries := registries w;
     instanceMaps := ms; invoked := invoked w |}.

Definition allocCell (v : any) : M nat :=
  λ w, Done (length (heap w)) (withHeap (heap w ++ [v]) w).

Definition loadCell (a : nat) : M any :=
  λ w, match heap w !! a with
       | Some v => Done v w
       | None => Panicked
       end.

Definition storeCell (a : nat) (v : any) : M unit :=
  λ w, match heap w !! a with
       | Some _ => Done tt (withHeap (<[a := v]> (heap w)) w)
       | None => Panicked
       end.

(** [body(resolver)]. *)
Fixpoint run (resolver : Resolver) (body : prog) : M result :=
  match body with
  | Return v err => ret (v, err)
  | CallResolve typ k => r <- resolver typ ;; run resolver (k r.1 r.2)
  | AllocCell v k => a <- allocCell v ;; run resolver (k a)
  | LoadCell a k => v <- loadCell a ;; run resolver (k v)
  | StoreCell a v k => storeCell a v ;;; run resolver k
  | PanicP => λ _, Panicked
  end.

(** Instrumentation: records that the factory registered for [typ] is about
    to be called. *)
Definition noteInvoked (typ : rtype) : M unit :=
  λ w, Done tt {| heap := heap w; registries := registries w;
                  instanceMaps := instanceMaps w; invoked := typ :: invoked w |}.

(** ** instance_map.go *)

(** [m.mu.Lock()]: blocks for ever when the lock is held. *)
Definition Lock (m : nat) : M unit :=
  λ w, match instanceMaps w !! m with
       | None => Panicked
       | Some im =>
           if mu im then Deadlock
           else Done tt (withInstanceMaps
                  (<[m := {| mu := true; instances := instances im |}]>
                     (instanceMaps w)) w)
       end.

(** [m.mu.Unlock()]. *)
Definition Unlock (m : nat) : M unit :=
  λ w, match instanceMaps w !! m with
       | None => Panicked
       | Some im =>
           Done tt (withInstanceMaps
             (<[m := {| mu := false; instances := instances im |}]>
                (instanceMaps w)) w)
       end.

(** [v, ok := m.instances[typ]]. *)
Definition readInstance (m : nat) (typ : rtype) : M (any * bool) :=
  λ w, match instanceMaps w !! m with
       | None => Panicked
       | Some im =>
           match mapLookup (instances im) typ with
           | Some v => Done (v, true) w
           | None => Done (Nil, false) w
           end
       end.

(** [if m.instances == nil { make }; m.instances[typ] = service]. *)
Definition saveInstance (m : nat) (typ : rtype) (service : any) : M unit :=
  λ w, match instanceMaps w !! m with
       | None => Panicked
       | Some im =>
           let made := match instances im with
                       | None => ∅
                       | Some existing => existing
                       end in
           Done tt (withInstanceMaps
             (<[m := {| mu := mu im;
                        instances := Some (<[typ := service]> made) |}]>
                (instanceMaps w)) w)
       end.

(** [instanceMap.get]: [RLock], read, [RUnlock]; the read lock blocks while
    the lock is held for writing. *)
Definition instanceMap_get (m : nat) (typ : rtype) : M (any * bool) :=
  λ w, match instanceMaps w !! m with
       | None => Panicked
       | Some im => if mu im then Deadlock else readInstance m typ w
       end.

(** [instanceMap.resolve]; the deferred [Unlock] runs on each return. *)
Definition instanceMap_resolve (m : nat) (typ : rtype) (factory : factoryFunc)
    (resolver : Resolver) : M result :=
  got <- instanceMap_get m typ ;;
  if got.2 then ret (got.1, None)
  else
    Lock m ;;;
    again <- readInstance m typ ;;
    if again.2 then Unlock m ;;; ret (again.1, None)
    else
      noteInvoked typ ;;;
      built <- run resolver factory ;;
      match built.2 with
      | Some err => Unlock m ;;; ret (Nil, Some err)
      | None =>
          saveInstance m typ built.1 ;;;
          Unlock m ;;;
          ret (built.1, None)
      end.

(** ** root_provider.go *)

(** [RootProvider.Resolve].  [fuel] bounds the depth of factories calling
    back into the provider. *)
Fixpoint RootProvider_Resolve (fuel : nat) (provider : RootProvider)
    (typ : rtype) : M result :=
  match fuel with
  | O => λ _, OutOfFuel
  | S fuel' =>
      match mapLookup (provider_registrations provider) typ with
      | None => ret (Nil, Some (UnknownType typ))
      | Some registration =>
          if bool_decide (lifetime registration = Transient) then
            noteInvoked typ ;;;
            run (RootProvider_Resolve fuel' provider) (factory registration)
          else if bool_decide (lifetime registration = Scoped) then
            ret (Nil, Some (ScopedValueRequestedFromRootProvider typ))
          else if bool_decide (lifetime registration = Singleton) then
            instanceMap_resolve (singletons provider) typ (factory registration)
              (RootProvider_Resolve fuel' provider)
          else λ _, Panicked
      end
  end.

(** ** scope.go *)

(** [type Scope struct]. *)
Record Scope := {
  root : RootProvider;
  scopedValues : nat;
}.

(** [RootProvider.NewScope]. *)
Definition RootProvider_NewScope (provider : RootProvider) : M Scope :=
  m <- newInstanceMap ;;
  ret {| root := provider; scopedValues := m |}.

(** [Scope.NewScope]. *)
Definition Scope_NewScope (scope : Scope) : M Scope :=
  RootProvider_NewScope (root scope).

(** [Scope.Resolve]. *)
Fixpoint Scope_Resolve (fuel : nat) (scope : Scope) (typ : rtype) : M result :=
  match fuel with
  | O => λ _, OutOfFuel
  | S fuel' =>
      match mapLookup (provider_registrations (root scope)) typ with
      | Some registration =>
          if bool_decide (lifetime registration = Scoped) then
            instanceMap_resolve (scopedValues scope) typ (factory registration)
              (Scope_Resolve fuel' scope)
          else RootProvider_Resolve (S fuel') (root scope) typ
      | None => RootProvider_Resolve (S fuel') (root scope) typ
      end
  end.

(** ** resolve.go *)

(** [Resolve[T]]: a nil [resolver] is [None]; the typed result is returned as
    the value it holds. *)
Definition Resolve (T : rtype) (resolver : option Resolver) : M result :=
  match resolver with
  | None => ret (zeroValue T, Some ErrNilResolver)
  | Some r =>
      let zero := zeroValue T in
      let typ := T in
      res <- r typ ;;
      match res.2 with
      | Some err => ret (zero, Some (resolverError err))
      | None =>
          if typeAssert res.1 T then ret (res.1, None)
          else ret (zero, Some (InvalidResolution typ (TypeOf res.1)))
      end
  end.

End Container.

(** * Properties *)

(** ** Computations *)

Lemma bind_Done {A B} (m : M A) (k : A → M B) w b w' :
  bind m k w = Done b w' →
  ∃ a w1, m w = Done a w1 ∧ k a w1 = Done b w'.
Proof.
  unfold bind. destruct (m w) as [a w1| | |]; try discriminate. eauto.
Qed.

Lemma bind_Done_intro {A B} (m : M A) (k : A → M B) w a w1 :
  m w = Done a w1 → bind m k w = k a w1.
Proof. unfold bind. intros ->. reflexivity. Qed.

Lemma bind_assoc {A B C} (m : M A) (k : A → M B) (k' : B → M C) w :
  bind (bind m k) k' w = bind m (λ a, bind (k a) k') w.
Proof. unfold bind. destruct (m w); reflexivity. Qed.

Lemma bind_ext {A B} (m : M A) (k1 k2 : A → M B) w :
  (∀ a w', k1 a w' = k2 a w') → bind m k1 w = bind m k2 w.
Proof. intros H. unfold bind. destruct (m w); auto. Qed.

Lemma bind_ret {A B} (a : A) (k : A → M B) w : bind (ret a) k w = k a w.
Proof. reflexivity. Qed.

Lemma ret_Done {A} (a b : A) w w' : ret a w = Done b w' → a = b ∧ w = w'.
Proof. unfold ret. intros [= -> ->]. auto. Qed.

(** Splits a hypothesis [bind m k w = Done b w'] into its two halves. *)
Ltac inv_bind H :=
  let a := fresh "a" in
  let w1 := fresh "w" in
  let H1 := fresh "Hrun" in
  apply bind_Done in H as (a & w1 & H1 & H).

Lemma run_andThen resolver p k w :
  run resolver (andThen p k) w =
  bind (run resolver p) (λ r, run resolver (k r.1 r.2)) w.
Proof.
  revert w. induction p as [v err|typ k' IH|v k' IH|a k' IH|a v k' IH|];
    intros w; simpl.
  - reflexivity.
  - unfold bind. destruct (resolver typ w) as [r w1| | |]; try reflexivity.
    apply IH.
  - unfold bind. simpl. apply IH.
  - unfold bind, loadCell. destruct (heap w !! a); try reflexivity. apply IH.
  - unfold bind, storeCell. destruct (heap w !! a); try reflexivity. apply IH.
  - reflexivity.
Qed.

(** ** How a call may change the store *)

(** [evolves w w']: cells are only added, registration maps are untouched,
    every [instanceMap] keeps its lock state and its entries, one that is
    locked keeps exactly its contents, and the record of invocations only
    grows. *)
Definition evolves (w w' : world) : Prop :=
  (length (heap w) ≤ length (heap w'))%nat ∧
  registries w' = registries w ∧
  (∀ m im, instanceMaps w !! m = Some im →
     ∃ im', instanceMaps w' !! m = Some im' ∧
            mu im' = mu im ∧
            (mu im = true → instances im' = instances im) ∧
            (∀ typ v, mapLookup (instances im) typ = Some v →
                      mapLookup (instances im') typ = Some v)) ∧
  (∃ l, invoked w' = l ++ invoked w).

Lemma evolves_refl w : evolves w w.
Proof.
  repeat split; auto.
  - intros m im Hm. exists im. auto.
  - exists []. reflexivity.
Qed.

Lemma evolves_trans w1 w2 w3 : evolves w1 w2 → evolves w2 w3 → evolves w1 w3.
Proof.
  intros (Hh1 & Hr1 & Hm1 & [l1 Hl1]) (Hh2 & Hr2 & Hm2 & [l2 Hl2]).
  repeat split.
  - lia.
  - congruence.
  - intros m im Him.
    destruct (Hm1 m im Him) as (im' & Him' & Hmu' & Hlk' & Hent').
    destruct (Hm2 m im' Him') as (im'' & Him'' & Hmu'' & Hlk'' & Hent'').
    exists im''. repeat split; auto.
    + congruence.
    + intros Hl. rewrite Hlk'' by congruence. auto.
  - exists (l2 ++ l1). rewrite Hl2, Hl1, app_assoc. reflexivity.
Qed.

(** A resolver that changes the store only as [evolves] allows. *)
Definition orderly (resolver : Resolver) : Prop :=
  ∀ typ w res w', resolver typ w = Done res w' → evolves w w'.

Lemma evolves_withHeap h w :
  (length (heap w) ≤ length h)%nat → evolves w (withHeap h w).
Proof.
  intros Hh. repeat split; auto.
  - intros m im Hm. exists im. auto.
  - exists []. reflexivity.
Qed.

Lemma noteInvoked_evolves typ w u w' :
  noteInvoked typ w = Done u w' → evolves w w'.
Proof.
  intros [= <- <-]. repeat split; auto.
  - intros m im Hm. exists im. auto.
  - exists [typ]. reflexivity.
Qed.

Lemma run_evolves resolver body :
  orderly resolver →
  ∀ w res w', run resolver body w = Done res w' → evolves w w'.
Proof.
  intros Hres.
  induction body as [v err|typ k IH|v k IH|a k IH|a v k IH|];
    intros w res w' H; simpl in H.
  - apply ret_Done in H as [_ <-]. apply evolves_refl.
  - inv_bind H. eapply evolves_trans; [eapply Hres; eauto|eapply IH; eauto].
  - inv_bind H. injection Hrun as <- <-.
    eapply evolves_trans; [|eapply IH; eauto].
    apply evolves_withHeap. rewrite length_app. lia.
  - inv_bind H. unfold loadCell in Hrun.
    destruct (heap w !! a); [|discriminate]. injection Hrun as <- <-.
    eapply IH; eauto.
  - inv_bind H. unfold storeCell in Hrun.
    destruct (heap w !! a); [|discriminate]. injection Hrun as <- <-.
    eapply evolves_trans; [|eapply IH; eauto].
    apply evolves_withHeap. rewrite length_insert. lia.
  - discriminate.
Qed.

(** ** The instance cache *)

(** The entry of [typ] in the cache at [m]. *)
Definition cached (m : nat) (typ : rtype) (w : world) : option any :=
  im ← instanceMaps w !! m; mapLookup (instances im) typ.

(** The lock of the cache at [m] is free. *)
Definition unlocked (m : nat) (w : world) : Prop :=
  ∃ im, instanceMaps w !! m = Some im ∧ mu im = false.

(** The two ways [instanceMap.resolve] returns: the fast path, and the path
    through the factory. *)
Lemma instanceMap_resolve_inv m typ factory resolver w res w' :
  instanceMap_resolve m typ factory resolver w = Done res w' →
  (∃ v, cached m typ w = Some v ∧ unlocked m w ∧ res = (v, None) ∧ w' = w) ∨
  (cached m typ w = None ∧ unlocked m w ∧
   ∃ w1 w2 built w3,
     Lock m w = Done tt w1 ∧
     noteInvoked typ w1 = Done tt w2 ∧
     run resolver factory w2 = Done built w3 ∧
     match built.2 with
     | Some err => res = (Nil, Some err) ∧ Unlock m w3 = Done tt w'
     | None => res = (built.1, None) ∧
               ∃ w4, saveInstance m typ built.1 w3 = Done tt w4 ∧
                     Unlock m w4 = Done tt w'
     end).
Proof.
  unfold instanceMap_resolve. intros H.
  inv_bind H. unfold instanceMap_get, readInstance in Hrun.
  destruct (instanceMaps w !! m) as [im|] eqn:Him; [|discriminate].
  destruct (mu im) eqn:Hmu; [discriminate|].
  assert (Hcached : cached m typ w = mapLookup (instances im) typ).
  { unfold cached. rewrite Him. reflexivity. }
  assert (Hfree : unlocked m w) by (exists im; auto).
  destruct (mapLookup (instances im) typ) as [v|] eqn:Hlk.
  - injection Hrun as <- <-. simpl in H. apply ret_Done in H as [<- <-].
    left. exists v. auto.
  - injection Hrun as <- <-. simpl in H. right. split; [exact Hcached|].
    split; [exact Hfree|].
    inv_bind H. destruct a. inv_bind H.
    assert (Hagain : a = (Nil, false)).
    { unfold Lock in Hrun. rewrite Him, Hmu in Hrun. injection Hrun as <-.
      unfold readInstance in Hrun0. simpl in Hrun0.
      rewrite list_lookup_insert_eq in Hrun0
        by (eapply lookup_lt_Some; eauto).
      simpl in Hrun0. rewrite Hlk in Hrun0. congruence. }
    subst a. simpl in H.
    assert (w1 = w0) as ->.
    { unfold Lock in Hrun. rewrite Him, Hmu in Hrun. injection Hrun as <-.
      unfold readInstance in Hrun0. simpl in Hrun0.
      rewrite list_lookup_insert_eq in Hrun0
        by (eapply lookup_lt_Some; eauto).
      simpl in Hrun0. rewrite Hlk in Hrun0. congruence. }
    inv_bind H. destruct a. inv_bind H.
    exists w0, w1, a, w2. repeat split; auto.
    destruct (a.2) as [err|].
    + inv_bind H. destruct a0. apply ret_Done in H as [<- <-]. auto.
    + inv_bind H. destruct a0. inv_bind H. destruct a0.
      apply ret_Done in H as [<- <-]. eauto.
Qed.

Lemma Lock_spec m w w1 :
  Lock m w = Done tt w1 →
  ∃ im, instanceMaps w !! m = Some im ∧ mu im = false ∧
        w1 = withInstanceMaps
               (<[m := {| mu := true; instances := instances im |}]>
                  (instanceMaps w)) w.
Proof.
  unfold Lock. destruct (instanceMaps w !! m) as [im|]; [|discriminate].
  destruct (mu im) eqn:Hmu; [discriminate|]. intros [= <-]. eauto.
Qed.

Lemma Unlock_spec m w w1 :
  Unlock m w = Done tt w1 →
  ∃ im, instanceMaps w !! m = Some im ∧
        w1 = withInstanceMaps
               (<[m := {| mu := false; instances := instances im |}]>
                  (instanceMaps w)) w.
Proof.
  unfold Unlock. destruct (instanceMaps w !! m) as [im|]; [|discriminate].
  intros [= <-]. eauto.
Qed.

Lemma saveInstance_spec m typ service w w1 :
  saveInstance m typ service w = Done tt w1 →
  ∃ im, instanceMaps w !! m = Some im ∧
        w1 = withInstanceMaps
               (<[m := {| mu := mu im;
                          instances := Some (<[typ := service]>
                            (default ∅ (instances im))) |}]>
                  (instanceMaps w)) w.
Proof.
  unfold saveInstance. destruct (instanceMaps w !! m) as [im|]; [|discriminate].
  intros [= <-]. exists im. split; [reflexivity|].
  destruct (instances im); reflexivity.
Qed.

(** The slow path in full: what the store looks like after the factory has
    run under the lock, and after the deferred [Unlock]. *)
Lemma instanceMap_resolve_miss m typ factory resolver w res w' :
  orderly resolver →
  instanceMap_resolve m typ factory resolver w = Done res w' →
  cached m typ w = None →
  ∃ im w2 built w3,
    instanceMaps w !! m = Some im ∧ mu im = false ∧
    mapLookup (instances im) typ = None ∧
    w2 = {| heap := heap w; registries := registries w;
            instanceMaps :=
              <[m := {| mu := true; instances := instances im |}]> (instanceMaps w);
            invoked := typ :: invoked w |} ∧
    run resolver factory w2 = Done built w3 ∧
    evolves w2 w3 ∧
    instanceMaps w3 !! m = Some {| mu := true; instances := instances im |} ∧
    match built.2 with
    | Some err =>
        res = (Nil, Some err) ∧
        w' = withInstanceMaps (<[m := im]> (instanceMaps w3)) w3
    | None =>
        res = (built.1, None) ∧
        w' = withInstanceMaps
               (<[m := {| mu := false;
                          instances := Some (<[typ := built.1]>
                            (default ∅ (instances im))) |}]>
                  (instanceMaps w3)) w3
    end.
Proof.
  intros Hres H Hnone.
  apply instanceMap_resolve_inv in H as [(v & Hc & _)|(_ & _ & H)];
    [congruence|].
  destruct H as (w1 & w2 & built & w3 & HL & HN & HR & Hend).
  apply Lock_spec in HL as (im & Him & Hmu & ->).
  injection HN as <-.
  assert (Hlk : mapLookup (instances im) typ = None).
  { unfold cached in Hnone. rewrite Him in Hnone. exact Hnone. }
  pose proof (run_evolves _ _ Hres _ _ _ HR) as Hev.
  assert (Hm3 : instanceMaps w3 !! m = Some {| mu := true; instances := instances im |}).
  { destruct Hev as (_ & _ & Hmaps & _).
    destruct (Hmaps m {| mu := true; instances := instances im |})
      as (im3 & Him3 & Hmu3 & Hlk3 & _).
    { simpl. apply list_lookup_insert_eq. eapply lookup_lt_Some; eauto. }
    simpl in Hmu3, Hlk3. rewrite Him3. f_equal.
    destruct im3 as [mu3 ins3]. simpl in *. rewrite Hmu3, Hlk3; auto. }
  eexists im, _, built, w3.
  split; [exact Him|]. split; [exact Hmu|]. split; [exact Hlk|].
  split; [reflexivity|]. split; [exact HR|]. split; [exact Hev|].
  split; [exact Hm3|].
  destruct (built.2) as [err|].
  - destruct Hend as [-> HU]. split; [reflexivity|].
    apply Unlock_spec in HU as (im3 & Him3 & ->).
    rewrite Hm3 in Him3. injection Him3 as <-. simpl.
    destruct im as [mu0 ins0]. simpl in *. subst mu0. reflexivity.
  - destruct Hend as [-> (w4 & HS & HU)]. split; [reflexivity|].
    apply saveInstance_spec in HS as (im3 & Him3 & ->).
    rewrite Hm3 in Him3. injection Him3 as <-.
    apply Unlock_spec in HU as (im4 & Him4 & ->). simpl in *.
    rewrite list_lookup_insert_eq in Him4 by (eapply lookup_lt_Some; eauto).
    injection Him4 as <-. simpl.
    unfold withInstanceMaps. simpl. rewrite list_insert_insert_eq.
    reflexivity.
Qed.

Lemma instanceMap_resolve_evolves m typ factory resolver :
  orderly resolver →
  ∀ w res w',
    instanceMap_resolve m typ factory resolver w = Done res w' → evolves w w'.
Proof.
  intros Hres w res w' H.
  destruct (cached m typ w) as [v|] eqn:Hc.
  { apply instanceMap_resolve_inv in H as [(v' & _ & _ & _ & ->)|(Hn & _)];
      [apply evolves_refl|congruence]. }
  destruct (instanceMap_resolve_miss _ _ _ _ _ _ _ Hres H Hc)
    as (im & w2 & built & w3 & Him & Hmu & Hlk & -> & HR & Hev & Hm3 & Hend).
  destruct Hev as (Hheap & Hregs & Hmaps & [l Hl]). simpl in *.
  assert (Hw' : ∃ final, mu final = false ∧
            (∀ typ' v, mapLookup (instances im) typ' = Some v →
                       mapLookup (instances final) typ' = Some v) ∧
            w' = withInstanceMaps (<[m := final]> (instanceMaps w3)) w3).
  { destruct (built.2).
    - destruct Hend as [_ ->]. exists im. auto.
    - destruct Hend as [_ ->]. eexists. split; [|split; [|reflexivity]]; simpl; auto.
      intros typ' v Hv. destruct (decide (typ = typ')) as [<-|Hne]; [congruence|].
      rewrite lookup_insert_ne by done.
      destruct (instances im); simpl in *; [exact Hv|discriminate]. }
  destruct Hw' as (final & Hfmu & Hfent & ->).
  repeat split; simpl; auto.
  - intros m0 im0 Him0. destruct (decide (m0 = m)) as [->|Hne].
    + rewrite Him in Him0. injection Him0 as <-. exists final.
      rewrite list_lookup_insert_eq by (eapply lookup_lt_Some; eauto).
      repeat split; auto; congruence.
    + destruct (Hmaps m0 im0) as (im0' & Him0' & Hrest).
      { rewrite list_lookup_insert_ne by done. exact Him0. }
      exists im0'. rewrite list_lookup_insert_ne by done. auto.
  - exists (l ++ [typ]). rewrite Hl, <- app_assoc. reflexivity.
Qed.

(** The fast path: an entry of an unlocked cache is returned as it is. *)
Lemma instanceMap_resolve_hit m typ factory resolver w v :
  unlocked m w → cached m typ w = Some v →
  instanceMap_resolve m typ factory resolver w = Done (v, None) w.
Proof.
  intros (im & Him & Hmu) Hc. unfold cached in Hc. rewrite Him in Hc. simpl in Hc.
  unfold instanceMap_resolve, bind, instanceMap_get, readInstance.
  rewrite Him, Hmu, Hc. reflexivity.
Qed.

(** The store in which [instanceMap.resolve] calls the factory: the lock of
    the cache at [m] is held and the call is on record. *)
Definition underLock (m : nat) (typ : rtype) (w : world) : world :=
  {| heap := heap w; registries := registries w;
     instanceMaps :=
       alter (λ im, {| mu := true; instances := instances im |}) m (instanceMaps w);
     invoked := typ :: invoked w |}.

Lemma underLock_insert m typ w im :
  instanceMaps w !! m = Some im →
  underLock m typ w =
  {| heap := heap w; registries := registries w;
     instanceMaps :=
       <[m := {| mu := true; instances := instances im |}]> (instanceMaps w);
     invoked := typ :: invoked w |}.
Proof.
  intros Him. unfold underLock. f_equal.
  apply list_eq. intros i. destruct (decide (i = m)) as [->|Hne].
  - rewrite list_lookup_alter_eq, Him. simpl.
    rewrite list_lookup_insert_eq by (eapply lookup_lt_Some; eauto). reflexivity.
  - rewrite list_lookup_alter_ne, list_lookup_insert_ne by done. reflexivity.
Qed.

(** The slow path, forwards: from what the factory returns under the lock to
    what [instanceMap.resolve] returns. *)
Lemma instanceMap_resolve_build m typ factory resolver w built w3 :
  orderly resolver →
  unlocked m w → cached m typ w = None →
  run resolver factory (underLock m typ w) = Done built w3 →
  ∃ im,
    instanceMaps w !! m = Some im ∧
    instanceMap_resolve m typ factory resolver w =
    match built.2 with
    | Some err =>
        Done (Nil, Some err) (withInstanceMaps (<[m := im]> (instanceMaps w3)) w3)
    | None =>
        Done (built.1, None)
          (withInstanceMaps
             (<[m := {| mu := false;
                        instances := Some (<[typ := built.1]>
                          (default ∅ (instances im))) |}]>
                (instanceMaps w3)) w3)
    end.
Proof.
  intros Hres (im & Him & Hmu) Hc HR. exists im. split; [exact Him|].
  rewrite (underLock_insert _ _ _ _ Him) in HR.
  pose proof (run_evolves _ _ Hres _ _ _ HR) as (_ & _ & Hmaps & _).
  destruct (Hmaps m {| mu := true; instances := instances im |})
    as (im3 & Him3 & Hmu3 & Hlk3 & _).
  { simpl. apply list_lookup_insert_eq. eapply lookup_lt_Some; eauto. }
  simpl in Hmu3, Hlk3. specialize (Hlk3 eq_refl).
  unfold cached in Hc. rewrite Him in Hc. simpl in Hc.
  unfold instanceMap_resolve, bind at 1, instanceMap_get, readInstance.
  rewrite Him, Hmu, Hc. simpl.
  unfold bind at 1, Lock. rewrite Him, Hmu.
  unfold bind at 1, readInstance. simpl.
  rewrite list_lookup_insert_eq by (eapply lookup_lt_Some; eauto). simpl.
  rewrite Hc. simpl.
  unfold bind at 1, noteInvoked. simpl.
  unfold withInstanceMaps at 1. simpl.
  unfold bind at 1. rewrite HR.
  destruct (built.2) as [err|].
  - unfold bind, Unlock, ret. rewrite Him3. simpl. rewrite Hlk3.
    destruct im as [mu0 ins0]. simpl in *. subst mu0. reflexivity.
  - unfold bind, saveInstance, Unlock, ret. rewrite Him3. simpl.
    rewrite list_lookup_insert_eq by (eapply lookup_lt_Some; eauto). simpl.
    rewrite Hlk3, list_insert_insert_eq. unfold withInstanceMaps. simpl.
    destruct (instances im); reflexivity.
Qed.

(** ** The providers change the store in an orderly way *)

Lemma RootProvider_Resolve_orderly fuel provider :
  orderly (RootProvider_Resolve fuel provider).
Proof.
  induction fuel as [|fuel IH]; intros typ w res w' H; simpl in H.
  - discriminate.
  - destruct (mapLookup (provider_registrations provider) typ) as [reg|].
    + repeat case_bool_decide.
      * inv_bind H. eapply evolves_trans.
        -- eapply noteInvoked_evolves; eauto.
        -- eapply run_evolves; eauto.
      * apply ret_Done in H as [_ <-]. apply evolves_refl.
      * eapply instanceMap_resolve_evolves; eauto.
      * discriminate.
    + apply ret_Done in H as [_ <-]. apply evolves_refl.
Qed.

Lemma Scope_Resolve_orderly fuel scope :
  orderly (Scope_Resolve fuel scope).
Proof.
  induction fuel as [|fuel IH]; intros typ w res w' H.
  - discriminate.
  - cbn [Scope_Resolve] in H.
    destruct (mapLookup (provider_registrations (root scope)) typ) as [reg|].
    + case_bool_decide.
      * eapply instanceMap_resolve_evolves; eauto.
      * eapply RootProvider_Resolve_orderly; eauto.
    + eapply RootProvider_Resolve_orderly; eauto.
Qed.

Lemma evolves_cached m typ v w w' :
  evolves w w' → unlocked m w → cached m typ w = Some v →
  unlocked m w' ∧ cached m typ w' = Some v.
Proof.
  intros (_ & _ & Hmaps & _) (im & Him & Hmu) Hc.
  destruct (Hmaps m im Him) as (im' & Him' & Hmu' & _ & Hent).
  unfold cached in *. rewrite Him in Hc. simpl in Hc.
  split.
  - exists im'. split; [exact Him'|congruence].
  - rewrite Him'. simpl. auto.
Qed.

(** ** C3: the memoised resolve of the instance cache *)

(** C3.  [instanceMap.resolve] on a cache that has no entry for [typ]: when
    the factory returns an error, that error is returned and the cache is
    exactly as before, so that a following resolve of [typ] calls the factory
    again; when the factory returns an instance, it is stored under [typ],
    and every later resolve of [typ], whatever factory and resolver it is
    given, returns that instance and leaves the store, and with it the record
    of factory calls, as it is. *)
Theorem instanceMap_resolve_memoizes m typ factory resolver w built w3 :
  orderly resolver →
  unlocked m w → cached m typ w = None →
  run resolver factory (underLock m typ w) = Done built w3 →
  ∃ w',
    match built.2 with
    | Some err =>
        instanceMap_resolve m typ factory resolver w = Done (Nil, Some err) w' ∧
        instanceMaps w' !! m = instanceMaps w !! m ∧
        unlocked m w' ∧ cached m typ w' = None ∧
        (∀ factory' resolver' res2 w2,
           orderly resolver' →
           instanceMap_resolve m typ factory' resolver' w' = Done res2 w2 →
           ∃ l, invoked w2 = l ++ typ :: invoked w')
    | None =>
        instanceMap_resolve m typ factory resolver w = Done (built.1, None) w' ∧
        cached m typ w' = Some built.1 ∧
        (∀ w2 factory' resolver',
           evolves w' w2 →
           instanceMap_resolve m typ factory' resolver' w2 =
           Done (built.1, None) w2)
    end.
Proof.
  intros Hres Hfree Hc HR.
  destruct (instanceMap_resolve_build _ _ _ _ _ _ _ Hres Hfree Hc HR)
    as (im & Him & Heq).
  destruct Hfree as (im0 & Him0 & Hmu). rewrite Him in Him0.
  injection Him0 as <-.
  pose proof (run_evolves _ _ Hres _ _ _ HR) as (_ & _ & Hmaps & _).
  assert (Hlt : (m < length (instanceMaps w3))%nat).
  { destruct (Hmaps m {| mu := true; instances := instances im |})
      as (im3 & Him3 & _).
    { rewrite (underLock_insert _ _ _ _ Him). simpl.
      apply list_lookup_insert_eq. eapply lookup_lt_Some; eauto. }
    eapply lookup_lt_Some; eauto. }
  destruct (built.2) as [err|]; eexists; (split; [exact Heq|]).
  - assert (Hm' : instanceMaps
                    (withInstanceMaps (<[m := im]> (instanceMaps w3)) w3) !! m
                  = Some im).
    { simpl. apply list_lookup_insert_eq. exact Hlt. }
    split; [congruence|]. split; [exists im; auto|].
    split.
    { unfold cached in *. rewrite Hm'. rewrite Him in Hc. exact Hc. }
    intros factory' resolver' res2 w2 Hres' H2.
    destruct (instanceMap_resolve_miss _ _ _ _ _ _ _ Hres' H2)
      as (im' & w2' & built' & w3' & _ & _ & _ & -> & _ & Hev & _ & Hend).
    { unfold cached in *. rewrite Hm'. rewrite Him in Hc. exact Hc. }
    destruct Hev as (_ & _ & _ & [l Hl]). simpl in Hl.
    exists l. destruct (built'.2); destruct Hend as [_ ->]; exact Hl.
  - set (w' := withInstanceMaps _ w3).
    assert (Hfree' : unlocked m w').
    { eexists. split; [apply list_lookup_insert_eq; exact Hlt|reflexivity]. }
    assert (Hc' : cached m typ w' = Some built.1).
    { unfold cached, w'. simpl.
      rewrite list_lookup_insert_eq by exact Hlt. simpl.
      apply lookup_insert_eq. }
    split; [exact Hc'|].
    intros w2 factory' resolver' Hev.
    destruct (evolves_cached _ _ _ _ _ Hev Hfree' Hc') as [Hf2 Hc2].
    apply instanceMap_resolve_hit; assumption.
Qed.

(** ** C4: scoped types and the root provider *)

(** C4.  [RootProvider.Resolve] of a type registered with the [Scoped]
    lifetime returns [ScopedValueRequestedFromRootProvider] for that type, in
    every store, and the store it returns is the one it was given: no factory
    was called, the record of calls included. *)
Theorem RootProvider_Resolve_scoped fuel provider typ reg w :
  mapLookup (provider_registrations provider) typ = Some reg →
  lifetime reg = Scoped →
  RootProvider_Resolve (S fuel) provider typ w =
  Done (Nil, Some (ScopedValueRequestedFromRootProvider typ)) w.
Proof.
  intros Hreg Hlife. simpl. rewrite Hreg, Hlife. reflexivity.
Qed.

(** ** Entry points of a provider *)

(** Where a caller resolves from: the root provider or one of its scopes. *)
Inductive entryPoint :=
  | AtRoot
  | AtScope (scope : Scope).

Definition belongs (provider : RootProvider) (e : entryPoint) : Prop :=
  match e with
  | AtRoot => True
  | AtScope scope => root scope = provider
  end.

Definition ResolveAt (provider : RootProvider) (e : entryPoint) (fuel : nat)
    (typ : rtype) : M result :=
  match e with
  | AtRoot => RootProvider_Resolve fuel provider typ
  | AtScope scope => Scope_Resolve fuel scope typ
  end.

(** One completed call on the provider or on a scope of it. *)
Inductive step (provider : RootProvider) : world → world → Prop :=
  | step_Resolve e fuel typ res w w' :
      belongs provider e →
      ResolveAt provider e fuel typ w = Done res w' →
      step provider w w'
  | step_NewScope scope w w' :
      RootProvider_NewScope provider w = Done scope w' →
      step provider w w'.

(** Number of recorded calls of the factory registered for [typ]. *)
Definition invocations (typ : rtype) (w : world) : nat :=
  count_occ rtype_eq_dec (invoked w) typ.

Lemma ResolveAt_orderly provider e fuel : orderly (ResolveAt provider e fuel).
Proof.
  destruct e; [apply RootProvider_Resolve_orderly|apply Scope_Resolve_orderly].
Qed.

Lemma evolves_cached_entry m typ v w w' :
  evolves w w' → cached m typ w = Some v → cached m typ w' = Some v.
Proof.
  intros (_ & _ & Hmaps & _) Hc. unfold cached in *.
  destruct (instanceMaps w !! m) as [im|] eqn:Him; [|discriminate].
  destruct (Hmaps m im Him) as (im' & Him' & _ & _ & Hent).
  rewrite Him'. simpl in *. auto.
Qed.

Lemma evolves_unlocked m w w' : evolves w w' → unlocked m w → unlocked m w'.
Proof.
  intros (_ & _ & Hmaps & _) (im & Him & Hmu).
  destruct (Hmaps m im Him) as (im' & Him' & Hmu' & _).
  exists im'. split; [exact Him'|congruence].
Qed.

Lemma NewScope_spec provider scope w w' :
  RootProvider_NewScope provider w = Done scope w' →
  scope = {| root := provider; scopedValues := length (instanceMaps w) |} ∧
  w' = withInstanceMaps
         (instanceMaps w ++ [{| mu := false; instances := None |}]) w.
Proof.
  unfold RootProvider_NewScope, bind, newInstanceMap, ret.
  intros [= <- <-]. split; reflexivity.
Qed.

Lemma NewScope_cached provider scope w w' m :
  RootProvider_NewScope provider w = Done scope w' →
  (m < length (instanceMaps w))%nat →
  instanceMaps w' !! m = instanceMaps w !! m ∧ invoked w' = invoked w.
Proof.
  intros H Hlt. apply NewScope_spec in H as [_ ->]. simpl.
  split; [apply lookup_app_l; exact Hlt|reflexivity].
Qed.

(** ** Calls that leave the factory of a cached singleton alone *)

Section Quiet.

Variable m : nat.
Variable typ : rtype.
Variable v : any.

(** A resolver that does not call the factory of [typ] as long as the cache
    at [m] holds an instance for [typ]. *)
Definition quiet (resolver : Resolver) : Prop :=
  ∀ typ' w res w',
    cached m typ w = Some v →
    resolver typ' w = Done res w' →
    invocations typ w' = invocations typ w.

Lemma run_quiet resolver body :
  orderly resolver → quiet resolver →
  ∀ w res w',
    cached m typ w = Some v →
    run resolver body w = Done res w' →
    invocations typ w' = invocations typ w.
Proof.
  intros Hord Hq.
  induction body as [v0 err|typ' k IH|v0 k IH|a k IH|a v0 k IH|];
    intros w res w' Hc H; simpl in H.
  - apply ret_Done in H as [_ <-]. reflexivity.
  - inv_bind H.
    rewrite (IH _ _ _ _ _ (evolves_cached_entry _ _ _ _ _ (Hord _ _ _ _ Hrun) Hc) H).
    eapply Hq; eauto.
  - inv_bind H. injection Hrun as <- <-.
    apply IH in H; [exact H|exact Hc].
  - inv_bind H. unfold loadCell in Hrun.
    destruct (heap w !! a); [|discriminate]. injection Hrun as <- <-.
    eapply IH; eauto.
  - inv_bind H. unfold storeCell in Hrun.
    destruct (heap w !! a); [|discriminate]. injection Hrun as <- <-.
    apply IH in H; [exact H|exact Hc].
  - discriminate.
Qed.

Lemma instanceMap_resolve_quiet m' typ' factory resolver :
  orderly resolver → quiet resolver →
  typ' ≠ typ →
  ∀ w res w',
    cached m typ w = Some v →
    instanceMap_resolve m' typ' factory resolver w = Done res w' →
    invocations typ w' = invocations typ w.
Proof.
  intros Hord Hq Hne w res w' Hc H.
  destruct (cached m' typ' w) as [v'|] eqn:Hc'.
  { apply instanceMap_resolve_inv in H as [(? & _ & _ & _ & ->)|(Hn & _)];
      [reflexivity|congruence]. }
  destruct (instanceMap_resolve_miss _ _ _ _ _ _ _ Hord H Hc')
    as (im & w2 & built & w3 & Him & Hmu & Hlk & -> & HR & _ & _ & Hend).
  assert (Hinv3 : invocations typ w3 = invocations typ w).
  { apply (run_quiet _ _ Hord Hq) in HR.
    - rewrite HR. unfold invocations. simpl.
      apply count_occ_cons_neq. exact Hne.
    - unfold cached in *. simpl.
      destruct (decide (m = m')) as [->|Hnm].
      + rewrite list_lookup_insert_eq by (eapply lookup_lt_Some; eauto).
        rewrite Him in Hc. exact Hc.
      + rewrite list_lookup_insert_ne by done. exact Hc. }
  destruct (built.2); destruct Hend as [_ ->]; exact Hinv3.
Qed.

End Quiet.

(** ** Singletons *)

Section Singletons.

Variable provider : RootProvider.
Variable typ : rtype.
Variable reg : registration.
Hypothesis Hreg : mapLookup (provider_registrations provider) typ = Some reg.
Hypothesis Hlife : lifetime reg = Singleton.

Lemma RootProvider_Resolve_quiet v fuel :
  quiet (singletons provider) typ v (RootProvider_Resolve fuel provider).
Proof using Hreg Hlife.
  induction fuel as [|fuel IH]; intros typ' w res w' Hc H; simpl in H.
  - discriminate.
  - destruct (decide (typ' = typ)) as [->|Hne].
    + rewrite Hreg, Hlife in H. simpl in H.
      apply instanceMap_resolve_inv in H as [(? & _ & _ & _ & ->)|(Hn & _)];
        [reflexivity|congruence].
    + destruct (mapLookup (provider_registrations provider) typ') as [reg'|].
      * repeat case_bool_decide.
        -- inv_bind H. injection Hrun as <- <-.
           apply (run_quiet (singletons provider) typ v) in H;
             [|apply RootProvider_Resolve_orderly|exact IH|exact Hc].
           rewrite H. unfold invocations. simpl.
           apply count_occ_cons_neq. exact Hne.
        -- apply ret_Done in H as [_ <-]. reflexivity.
        -- eapply instanceMap_resolve_quiet;
             [apply RootProvider_Resolve_orderly|exact IH|exact Hne|exact Hc|exact H].
        -- discriminate.
      * apply ret_Done in H as [_ <-]. reflexivity.
Qed.

Lemma Scope_Resolve_quiet v scope fuel :
  root scope = provider →
  quiet (singletons provider) typ v (Scope_Resolve fuel scope).
Proof using Hreg Hlife.
  intros Hroot.
  induction fuel as [|fuel IH]; intros typ' w res w' Hc H.
  - discriminate.
  - cbn [Scope_Resolve] in H. rewrite Hroot in H.
    destruct (mapLookup (provider_registrations provider) typ') as [reg'|] eqn:Hreg'.
    + case_bool_decide as Hsc.
      * assert (Hne : typ' ≠ typ).
        { intros ->. rewrite Hreg in Hreg'. injection Hreg' as <-.
          rewrite Hlife in Hsc. discriminate. }
        eapply instanceMap_resolve_quiet;
          [apply Scope_Resolve_orderly|exact IH|exact Hne|exact Hc|exact H].
      * eapply RootProvider_Resolve_quiet; eauto.
    + eapply RootProvider_Resolve_quiet; eauto.
Qed.

Lemma ResolveAt_quiet v e fuel :
  belongs provider e →
  quiet (singletons provider) typ v (ResolveAt provider e fuel).
Proof using Hreg Hlife.
  destruct e as [|scope]; simpl.
  - intros _. apply RootProvider_Resolve_quiet.
  - apply Scope_Resolve_quiet.
Qed.

(** A singleton that is in the cache is returned from every entry point, and
    nothing else happens. *)
Lemma ResolveAt_singleton_hit v e fuel w :
  belongs provider e →
  unlocked (singletons provider) w →
  cached (singletons provider) typ w = Some v →
  ResolveAt provider e (S fuel) typ w = Done (v, None) w.
Proof using Hreg Hlife.
  intros Hb Hfree Hc.
  assert (Hroot : RootProvider_Resolve (S fuel) provider typ w = Done (v, None) w).
  { simpl. rewrite Hreg, Hlife. simpl.
    apply instanceMap_resolve_hit; assumption. }
  destruct e as [|scope]; [exact Hroot|].
  simpl in Hb. subst provider. cbn [ResolveAt Scope_Resolve].
  rewrite Hreg, Hlife. exact Hroot.
Qed.

(** A singleton that was returned is in the cache. *)
Lemma ResolveAt_singleton_stored v e fuel w w' :
  belongs provider e →
  ResolveAt provider e fuel typ w = Done (v, None) w' →
  unlocked (singletons provider) w' ∧
  cached (singletons provider) typ w' = Some v.
Proof using Hreg Hlife.
  intros Hb H.
  assert (Hroot : ∃ fuel', instanceMap_resolve (singletons provider) typ
            (factory reg) (RootProvider_Resolve fuel' provider) w
          = Done (v, None) w').
  { destruct e as [|scope]; destruct fuel as [|fuel]; try discriminate.
    - simpl in H. rewrite Hreg, Hlife in H. simpl in H. eauto.
    - simpl in Hb. subst provider. cbn [ResolveAt Scope_Resolve] in H.
      rewrite Hreg, Hlife in H. simpl in H.
      rewrite Hreg, Hlife in H. simpl in H. eauto. }
  destruct Hroot as [fuel' Hroot].
  destruct (cached (singletons provider) typ w) as [v0|] eqn:Hc.
  - apply instanceMap_resolve_inv in Hroot
      as [(v1 & Hc1 & Hfree & [= ->] & ->)|(Hn & _)]; [|congruence].
    split; [exact Hfree|congruence].
  - destruct (instanceMap_resolve_miss _ _ _ _ _ _ _
                (RootProvider_Resolve_orderly _ _) Hroot Hc)
      as (im & w2 & built & w3 & _ & _ & _ & _ & _ & _ & Hm3 & Hend).
    destruct (built.2); destruct Hend as [Hres ->]; [discriminate|].
    injection Hres as ->.
    assert (Hlt : (singletons provider < length (instanceMaps w3))%nat)
      by (eapply lookup_lt_Some; eauto).
    split.
    + eexists. split; [apply list_lookup_insert_eq; exact Hlt|reflexivity].
    + unfold cached. simpl. rewrite list_lookup_insert_eq by exact Hlt.
      simpl. apply lookup_insert_eq.
Qed.

Lemma step_singleton v w w' :
  step provider w w' →
  unlocked (singletons provider) w →
  cached (singletons provider) typ w = Some v →
  unlocked (singletons provider) w' ∧
  cached (singletons provider) typ w' = Some v ∧
  invocations typ w' = invocations typ w.
Proof using Hreg Hlife.
  intros Hstep Hfree Hc. destruct Hstep as [e fuel typ' res w w' Hb H|scope w w' H].
  - pose proof (ResolveAt_orderly _ _ _ _ _ _ _ H) as Hev.
    split; [eapply evolves_unlocked; eauto|].
    split; [eapply evolves_cached_entry; eauto|].
    eapply ResolveAt_quiet; eauto.
  - destruct Hfree as (im & Him & Hmu).
    destruct (NewScope_cached _ _ _ _ (singletons provider) H) as [Hsame Hinv].
    { eapply lookup_lt_Some; eauto. }
    split; [exists im; split; [congruence|exact Hmu]|].
    split; [unfold cached in *; rewrite Hsame; exact Hc|].
    unfold invocations. rewrite Hinv. reflexivity.
Qed.

Lemma steps_singleton v w w' :
  rtc (step provider) w w' →
  unlocked (singletons provider) w →
  cached (singletons provider) typ w = Some v →
  unlocked (singletons provider) w' ∧
  cached (singletons provider) typ w' = Some v ∧
  invocations typ w' = invocations typ w.
Proof using Hreg Hlife.
  induction 1 as [w|w w1 w' Hstep _ IH]; intros Hfree Hc.
  - auto.
  - destruct (step_singleton _ _ _ Hstep Hfree Hc) as (Hfree1 & Hc1 & Hi1).
    destruct (IH Hfree1 Hc1) as (Hfree' & Hc' & Hi').
    repeat split; auto. congruence.
Qed.

End Singletons.

(** ** C1: singleton registrations *)

(** C1 as the specification states it: whatever two calls of [Resolve] for a
    [Singleton] type return, they return the same value, and the factory has
    been called at most once over the two calls. *)
Definition singleton_claim_as_stated : Prop :=
  ∀ provider typ reg e1 e2 fuel1 fuel2 res1 res2 w0 w1 w2,
    mapLookup (provider_registrations provider) typ = Some reg →
    lifetime reg = Singleton →
    belongs provider e1 → belongs provider e2 →
    ResolveAt provider e1 fuel1 typ w0 = Done res1 w1 →
    ResolveAt provider e2 fuel2 typ w1 = Done res2 w2 →
    res1.1 = res2.1 ∧ (invocations typ w2 ≤ invocations typ w0 + 1)%nat.

(** C1, amended.  Once a [Resolve] of a [Singleton] type, on the root provider
    or on any of its scopes, has returned an instance, then after any further
    calls on the provider and its scopes every [Resolve] of that type, from
    every entry point, returns that same instance and leaves the store as it
    is, and the factory has not been called since the first success. *)
Theorem singleton_identical provider typ reg e1 fuel1 v1 w0 w1 w2 :
  mapLookup (provider_registrations provider) typ = Some reg →
  lifetime reg = Singleton →
  belongs provider e1 →
  ResolveAt provider e1 fuel1 typ w0 = Done (v1, None) w1 →
  rtc (step provider) w1 w2 →
  (∀ e2 fuel2, belongs provider e2 →
     ResolveAt provider e2 (S fuel2) typ w2 = Done (v1, None) w2) ∧
  invocations typ w2 = invocations typ w1.
Proof.
  intros Hreg Hlife Hb1 H1 Hsteps.
  destruct (ResolveAt_singleton_stored _ _ _ Hreg Hlife _ _ _ _ _ Hb1 H1)
    as [Hfree1 Hc1].
  destruct (steps_singleton _ _ _ Hreg Hlife _ _ _ Hsteps Hfree1 Hc1)
    as (Hfree2 & Hc2 & Hinv).
  split; [|exact Hinv].
  intros e2 fuel2 Hb2. eapply ResolveAt_singleton_hit; eauto.
Qed.

(** ** Scoped registrations *)

Lemma step_cached provider m typ v w w' :
  step provider w w' →
  unlocked m w → cached m typ w = Some v →
  unlocked m w' ∧ cached m typ w' = Some v.
Proof.
  intros Hstep Hfree Hc. destruct Hstep as [e fuel typ' res w w' Hb H|scope w w' H].
  - pose proof (ResolveAt_orderly _ _ _ _ _ _ _ H) as Hev.
    split; [eapply evolves_unlocked; eauto|eapply evolves_cached_entry; eauto].
  - destruct Hfree as (im & Him & Hmu).
    destruct (NewScope_cached _ _ _ _ m H) as [Hsame _].
    { eapply lookup_lt_Some; eauto. }
    split; [exists im; split; [congruence|exact Hmu]|].
    unfold cached in *. rewrite Hsame. exact Hc.
Qed.

Lemma steps_cached provider m typ v w w' :
  rtc (step provider) w w' →
  unlocked m w → cached m typ w = Some v →
  unlocked m w' ∧ cached m typ w' = Some v.
Proof.
  induction 1 as [w|w w1 w' Hstep _ IH]; intros Hfree Hc; [auto|].
  destruct (step_cached _ _ _ _ _ _ Hstep Hfree Hc) as [Hfree1 Hc1]. auto.
Qed.

Lemma step_heap provider w w' :
  step provider w w' → (length (heap w) ≤ length (heap w'))%nat.
Proof.
  intros [e fuel typ' res w0 w0' Hb H|scope w0 w0' H].
  - apply (ResolveAt_orderly _ _ _ _ _ _ _ H).
  - apply NewScope_spec in H as [_ ->]. reflexivity.
Qed.

Lemma steps_heap provider w w' :
  rtc (step provider) w w' → (length (heap w) ≤ length (heap w'))%nat.
Proof.
  induction 1 as [w|w w1 w' Hstep _ IH]; [lia|].
  apply step_heap in Hstep. lia.
Qed.

(** A factory whose instances are new cells: what it returns without error is
    a reference to a cell allocated during the call. *)
Definition allocates (factory : factoryFunc) : Prop :=
  ∀ resolver w v w',
    orderly resolver →
    run resolver factory w = Done (v, None) w' →
    ∃ t a, v = Ref t a ∧ (length (heap w) ≤ a < length (heap w'))%nat.

Section ScopedValues.

Variable provider : RootProvider.
Variable typ : rtype.
Variable reg : registration.
Hypothesis Hreg : mapLookup (provider_registrations provider) typ = Some reg.
Hypothesis Hlife : lifetime reg = Scoped.

Lemma Scope_Resolve_scoped scope fuel w :
  root scope = provider →
  Scope_Resolve (S fuel) scope typ w =
  instanceMap_resolve (scopedValues scope) typ (factory reg)
    (Scope_Resolve fuel scope) w.
Proof using Hreg Hlife.
  intros Hroot. cbn [Scope_Resolve]. rewrite Hroot, Hreg, Hlife. reflexivity.
Qed.

Lemma Scope_Resolve_scoped_hit scope fuel v w :
  root scope = provider →
  unlocked (scopedValues scope) w →
  cached (scopedValues scope) typ w = Some v →
  Scope_Resolve (S fuel) scope typ w = Done (v, None) w.
Proof using Hreg Hlife.
  intros Hroot Hfree Hc. rewrite Scope_Resolve_scoped by exact Hroot.
  apply instanceMap_resolve_hit; assumption.
Qed.

(** What a successful [Resolve] of the scoped type on a scope leaves behind;
    when the scope had no instance yet, the factory was called under the
    lock of this scope's cache and its value is the one returned. *)
Lemma Scope_Resolve_scoped_stored scope fuel v w w' :
  root scope = provider →
  Scope_Resolve fuel scope typ w = Done (v, None) w' →
  unlocked (scopedValues scope) w' ∧
  cached (scopedValues scope) typ w' = Some v ∧
  (length (heap w) ≤ length (heap w'))%nat ∧
  (cached (scopedValues scope) typ w = None →
   ∃ w3, run (Scope_Resolve (pred fuel) scope) (factory reg)
           (underLock (scopedValues scope) typ w) = Done (v, None) w3 ∧
         heap w' = heap w3 ∧
         (∃ l, invoked w' = l ++ typ :: invoked w) ∧
         ∀ m, m ≠ scopedValues scope →
              instanceMaps w' !! m = instanceMaps w3 !! m).
Proof using Hreg Hlife.
  intros Hroot H. destruct fuel as [|fuel]; [discriminate|].
  pose proof (Scope_Resolve_orderly _ _ _ _ _ _ H) as Hevolves.
  rewrite Scope_Resolve_scoped in H by exact Hroot. simpl pred.
  destruct (cached (scopedValues scope) typ w) as [v0|] eqn:Hc.
  - apply instanceMap_resolve_inv in H
      as [(v1 & Hc1 & Hfree & [= ->] & ->)|(Hn & _)]; [|congruence].
    repeat split; auto; congruence.
  - destruct (instanceMap_resolve_miss _ _ _ _ _ _ _
                (Scope_Resolve_orderly _ _) H Hc)
      as (im & w2 & built & w3 & Him & _ & _ & -> & HR & Hev & Hm3 & Hend).
    destruct built as [bv [err|]]; simpl in Hend;
      destruct Hend as [Hres ->]; [discriminate|].
    injection Hres as ->.
    assert (Hlt : (scopedValues scope < length (instanceMaps w3))%nat)
      by (eapply lookup_lt_Some; eauto).
    split.
    { eexists. split; [apply list_lookup_insert_eq; exact Hlt|reflexivity]. }
    split.
    { unfold cached. simpl. rewrite list_lookup_insert_eq by exact Hlt.
      simpl. apply lookup_insert_eq. }
    split; [apply Hevolves|].
    intros _. exists w3. rewrite (underLock_insert _ _ _ _ Him).
    split; [exact HR|]. split; [reflexivity|]. split.
    + destruct Hev as (_ & _ & _ & [l Hl]). exists l. exact Hl.
    + intros m Hm. simpl. apply list_lookup_insert_ne. auto.
Qed.

End ScopedValues.

(** A scope made by [Scope.NewScope] has the root of its parent and a new,
    empty cache of its own, whatever the parent's cache holds. *)
Lemma Scope_NewScope_fresh scope child typ w w' :
  Scope_NewScope scope w = Done child w' →
  root child = root scope ∧
  scopedValues child = length (instanceMaps w) ∧
  unlocked (scopedValues child) w' ∧
  cached (scopedValues child) typ w' = None ∧
  (∀ m, (m < length (instanceMaps w))%nat →
        scopedValues child ≠ m ∧ instanceMaps w' !! m = instanceMaps w !! m).
Proof.
  intros H. apply NewScope_spec in H as [-> ->]. simpl.
  split; [reflexivity|]. split; [reflexivity|].
  assert (Hnew : (instanceMaps w ++ [{| mu := false; instances := None |}])
                   !! length (instanceMaps w)
                 = Some {| mu := false; instances := None |}).
  { rewrite lookup_app_r by lia. rewrite Nat.sub_diag. reflexivity. }
  split; [eexists; split; [exact Hnew|reflexivity]|].
  split; [unfold cached; simpl; rewrite Hnew; reflexivity|].
  intros m Hm. split; [lia|]. apply lookup_app_l. exact Hm.
Qed.

(** ** C2: scoped registrations *)

(** C2 as the specification states it: on one scope two resolves of a
    [Scoped] type return the same instance, and on two different scopes of
    one root they return different instances. *)
Definition scoped_claim_as_stated : Prop :=
  ∀ provider typ reg s1 s2 fuel1 fuel2 fuel3 v1 v2 v3 w0 w1 w2 w3,
    mapLookup (provider_registrations provider) typ = Some reg →
    lifetime reg = Scoped →
    root s1 = provider → root s2 = provider →
    scopedValues s1 ≠ scopedValues s2 →
    Scope_Resolve fuel1 s1 typ w0 = Done (v1, None) w1 →
    Scope_Resolve fuel2 s1 typ w1 = Done (v2, None) w2 →
    Scope_Resolve fuel3 s2 typ w2 = Done (v3, None) w3 →
    v1 = v2 ∧ v1 ≠ v3.

(** C2, amended.  For a type registered with the [Scoped] lifetime: once a
    scope has returned an instance, every later resolve on that scope returns
    the same instance and changes nothing.  A resolve on another scope, whose
    cache has no instance of the type yet, does not use the first scope's
    instance: it calls the factory itself, under its own cache, returns and
    keeps what that call returned, and leaves the first scope's instance in
    place.  The two instances are different whenever the factory returns a
    newly allocated value on each call. *)
Theorem scoped_per_scope provider typ reg s1 s2 fuel1 fuel2 v1 v2 w0 w1 w2 w3 :
  mapLookup (provider_registrations provider) typ = Some reg →
  lifetime reg = Scoped →
  root s1 = provider → root s2 = provider →
  Scope_Resolve fuel1 s1 typ w0 = Done (v1, None) w1 →
  rtc (step provider) w1 w2 →
  (∀ fuel, Scope_Resolve (S fuel) s1 typ w2 = Done (v1, None) w2) ∧
  (cached (scopedValues s2) typ w2 = None →
   Scope_Resolve fuel2 s2 typ w2 = Done (v2, None) w3 →
   (∃ l, invoked w3 = l ++ typ :: invoked w2) ∧
   (∃ wf, run (Scope_Resolve (pred fuel2) s2) (factory reg)
            (underLock (scopedValues s2) typ w2) = Done (v2, None) wf) ∧
   (∀ fuel, Scope_Resolve (S fuel) s2 typ w3 = Done (v2, None) w3) ∧
   (∀ fuel, Scope_Resolve (S fuel) s1 typ w3 = Done (v1, None) w3) ∧
   (allocates (factory reg) → cached (scopedValues s1) typ w0 = None →
    v1 ≠ v2)).
Proof.
  intros Hreg Hlife Hr1 Hr2 H1 Hsteps.
  destruct (Scope_Resolve_scoped_stored _ _ _ Hreg Hlife _ _ _ _ _ Hr1 H1)
    as (Hfree1 & Hc1 & Hheap1 & Hbuilt1).
  destruct (steps_cached _ _ _ _ _ _ Hsteps Hfree1 Hc1) as [Hfree2 Hc2].
  split.
  { intros fuel. eapply Scope_Resolve_scoped_hit; eauto. }
  intros Hnone H2.
  destruct (Scope_Resolve_scoped_stored _ _ _ Hreg Hlife _ _ _ _ _ Hr2 H2)
    as (Hfree3 & Hc3 & Hheap3 & Hbuilt3).
  destruct (Hbuilt3 Hnone) as (wf & Hrun2 & Hheapf & Hinv & _).
  assert (Hstep : step provider w2 w3).
  { eapply (step_Resolve provider (AtScope s2)); [exact Hr2|exact H2]. }
  destruct (step_cached _ _ _ _ _ _ Hstep Hfree2 Hc2) as [Hfree1' Hc1'].
  split; [exact Hinv|]. split; [eauto|].
  split; [intros fuel; eapply Scope_Resolve_scoped_hit; eauto|].
  split; [intros fuel; eapply Scope_Resolve_scoped_hit; eauto|].
  intros Halloc Hnone1.
  destruct (Hbuilt1 Hnone1) as (wf1 & Hrun1 & Hheapf1 & _).
  destruct (Halloc _ _ _ _ (Scope_Resolve_orderly _ _) Hrun1)
    as (t1 & a1 & -> & Ha1).
  destruct (Halloc _ _ _ _ (Scope_Resolve_orderly _ _) Hrun2)
    as (t2 & a2 & -> & Ha2).
  pose proof (steps_heap _ _ _ Hsteps) as Hh12.
  simpl in Ha1, Ha2. intros [= _ Heq]. rewrite Hheapf1 in Hh12. lia.
Qed.

(** ** Default factories *)

Section DefaultFactories.

Variable StructFields : string → list StructField.
Variable Implements : rtype → rtype → bool.

(** The struct factory in the words of the specification: field by field in
    declaration order, a public field gets what the resolver returns for the
    field's declared type, a private field gets its zero value without any
    call of the resolver; the first failure ends the construction. *)
Fixpoint structFieldsSpec (resolver : Resolver) (fields : list StructField)
    : M (list any * option error) :=
  match fields with
  | [] => ret ([], None)
  | field :: rest =>
      if IsExported field then
        r <- resolver (Type_ field) ;;
        match r.2 with
        | Some e => ret ([], Some (resolverError e))
        | None =>
            match TypeOf r.1 with
            | Some rt =>
                if AssignableTo Implements rt (Type_ field) then
                  more <- structFieldsSpec resolver rest ;;
                  ret (r.1 :: more.1, more.2)
                else ret ([], Some (InvalidResolution (Type_ field) (Some rt)))
            | None => ret ([], Some (InvalidResolution (Type_ field) None))
            end
        end
      else
        more <- structFieldsSpec resolver rest ;;
        ret (zeroValue (Type_ field) :: more.1, more.2)
  end.

Definition structFactorySpec (typ : rtype) (resolver : Resolver) : M result :=
  built <- structFieldsSpec resolver (fieldsOf StructFields typ) ;;
  match built.2 with
  | Some e => ret (Nil, Some e)
  | None => ret (StructV typ built.1, None)
  end.

Lemma structFieldsLoop_spec typ resolver fields :
  ∀ (done : list any) w,
    run resolver
      (structFieldsLoop Implements typ fields (length done)
         (done ++ map (λ f, zeroValue (Type_ f)) fields)) w =
    bind (structFieldsSpec resolver fields)
      (λ built, match built.2 with
                | Some e => ret (Nil, Some e)
                | None => ret (StructV typ (done ++ built.1), None)
                end) w.
Proof.
  induction fields as [|field rest IH]; intros done w.
  - simpl. unfold bind, ret. simpl. rewrite !app_nil_r. reflexivity.
  - cbn [structFieldsLoop structFieldsSpec map].
    assert (Hstep : ∀ x : any,
      done ++ x :: map (λ f, zeroValue (Type_ f)) rest =
      (done ++ [x]) ++ map (λ f, zeroValue (Type_ f)) rest).
    { intros x. rewrite <- app_assoc. reflexivity. }
    assert (Hlen : ∀ x : any, S (length done) = length (done ++ [x])).
    { intros x. rewrite length_app. simpl. lia. }
    destruct (IsExported field); simpl negb; cbn iota.
    + simpl run. rewrite bind_assoc. apply bind_ext.
      intros [resolved err] w1. simpl.
      destruct err as [e|]; [reflexivity|].
      destruct (TypeOf resolved) as [rt|] eqn:Hty; [|reflexivity].
      destruct (AssignableTo Implements rt (Type_ field)); simpl; [|reflexivity].
      rewrite insert_app_r_alt by lia. rewrite Nat.sub_diag. simpl.
      rewrite (Hstep resolved), (Hlen resolved), IH, bind_assoc.
      apply bind_ext. intros [more err] w2. simpl.
      destruct err; [reflexivity|].
      unfold bind, ret. rewrite <- app_assoc. reflexivity.
    + rewrite (Hstep (zeroValue (Type_ field))),
        (Hlen (zeroValue (Type_ field))), IH, bind_assoc.
      apply bind_ext. intros [more err] w2. simpl.
      destruct err; [reflexivity|].
      unfold bind, ret. rewrite <- app_assoc. reflexivity.
Qed.

(** The factory that [getDefaultFactory] returns for a struct type, run. *)
Lemma structFactory_run (name : string) (resolver : Resolver) (w : world) :
  ∃ body,
    getDefaultFactory StructFields Implements (TStruct name) = (Some body, None) ∧
    run resolver body w = structFactorySpec (TStruct name) resolver w.
Proof.
  eexists. split; [reflexivity|].
  unfold structFactorySpec.
  apply (structFieldsLoop_spec (TStruct name) resolver
           (fieldsOf StructFields (TStruct name)) [] w).
Qed.

(** C5.  The default factory of a struct type exists, and running it with a
    resolver is the construction that the specification describes: from the
    zero value, every exported field in declaration order is resolved at its
    declared type and assigned; unexported fields keep their zero value and
    cost no call; an error of the resolver comes back wrapped in a
    [resolverError]; a nil value, or one whose type is not assignable to the
    field type, gives [InvalidResolution] with the field type and the type
    that was returned. *)
Theorem getDefaultStructFactory_spec (name : string) (resolver : Resolver) (w : world) :
  ∃ body,
    getDefaultFactory StructFields Implements (TStruct name) = (Some body, None) ∧
    run resolver body w =
    (built <- structFieldsSpec resolver (StructFields name) ;;
     match built.2 with
     | Some e => ret (Nil, Some e)
     | None => ret (StructV (TStruct name) built.1, None)
     end) w.
Proof.
  eexists. split; [reflexivity|].
  apply (structFieldsLoop_spec (TStruct name) resolver (StructFields name) [] w).
Qed.

End DefaultFactories.

Section PointerFactories.

Variable StructFields : string → list StructField.
Variable Implements : rtype → rtype → bool.

Local Abbreviation gdf := (getDefaultFactory StructFields Implements).

(** The [switch typ.Kind()] of the source. *)
Lemma getDefaultFactory_eq (typ : rtype) :
  gdf typ =
  match kindOf typ with
  | Bool
  | Int | Int8 | Int16 | Int32 | Int64
  | Uint | Uint8 | Uint16 | Uint32 | Uint64
  | Float32 | Float64
  | Complex64 | Complex128
  | Array
  | String
  | Slice => (Some (Return (Zero typ) None), None)
  | Map => (Some (AllocCell (Zero typ) (λ a, Return (Ref typ a) None)), None)
  | Chan => (Some (AllocCell (Zero typ) (λ a, Return (Ref typ a) None)), None)
  | Struct => getDefaultStructFactory StructFields Implements typ
  | Pointer => getDefaultPointerFactory StructFields Implements typ
  | _ => (None, Some (NoDefaultFactory typ))
  end.
Proof. destruct typ as [[]| | | | | | | |]; reflexivity. Qed.

(** [getDefaultFactory] returns a factory and no error, or no factory and
    [NoDefaultFactory] for the type it was asked about. *)
Lemma getDefaultFactory_shape (typ : rtype) :
  (∃ body, gdf typ = (Some body, None)) ∨
  gdf typ = (None, Some (NoDefaultFactory typ)).
Proof.
  induction typ as [b|n e IH|e IH|s|s|k IHk e IHe|e IH|e IH|s];
    try (left; eexists; reflexivity); try (right; reflexivity).
  - destruct b; try (left; eexists; reflexivity); right; reflexivity.
  - simpl. destruct IH as [[body ->]| ->].
    + left. eexists. reflexivity.
    + right. reflexivity.
Qed.

Definition hasDefaultFactory (typ : rtype) : Prop :=
  ∃ body, gdf typ = (Some body, None).

Lemma hasDefaultFactory_pointer (elem : rtype) :
  hasDefaultFactory (TPointer elem) ↔ hasDefaultFactory elem.
Proof.
  unfold hasDefaultFactory. simpl.
  destruct (getDefaultFactory_shape elem) as [[body ->]| ->]; simpl.
  - split; intros _; eexists; reflexivity.
  - split; intros [body H]; discriminate.
Qed.

Lemma getDefaultFactory_pointer_none (elem : rtype) :
  ¬ hasDefaultFactory elem →
  gdf (TPointer elem) = (None, Some (NoDefaultFactory (TPointer elem))).
Proof.
  intros Hno. simpl.
  destruct (getDefaultFactory_shape elem) as [Hyes| ->]; [contradiction|].
  reflexivity.
Qed.

(** A default factory returns either an error or a value of the type it was
    derived for. *)
Lemma default_factory_type (typ : rtype) :
  ∀ body resolver w v w1,
    gdf typ = (Some body, None) →
    run resolver body w = Done (v, None) w1 →
    TypeOf v = Some typ.
Proof.
  induction typ as [b|n e IH|e IH|s|s|k IHk e IHe|e IH|e IH|s];
    intros body resolver w v w1 Hf HR.
  - destruct b; simpl in Hf; try discriminate;
      injection Hf as <-; injection HR as <- _; reflexivity.
  - injection Hf as <-. injection HR as <- _. reflexivity.
  - injection Hf as <-. injection HR as <- _. reflexivity.
  - discriminate.
  - discriminate.
  - injection Hf as <-. injection HR as <- _. reflexivity.
  - simpl in Hf.
    destruct (getDefaultFactory_shape e) as [[ebody He]|He]; rewrite He in Hf;
      simpl in Hf; [|discriminate].
    injection Hf as <-. rewrite run_andThen in HR. inv_bind HR.
    destruct a as [ev [err|]]; simpl in HR.
    + apply ret_Done in HR as [[=] _].
    + inv_bind HR. simpl in HR.
      destruct (TypeOf ev) as [vt|]; [|discriminate].
      destruct (AssignableTo Implements vt e); [|discriminate].
      simpl in HR. inv_bind HR. apply ret_Done in HR as [[= <-] _].
      reflexivity.
  - injection Hf as <-. injection HR as <- _. reflexivity.
  - destruct (structFactory_run StructFields Implements s resolver w)
      as (body' & Hb & Hrun).
    rewrite Hf in Hb. injection Hb as <-. rewrite Hrun in HR.
    unfold structFactorySpec in HR. inv_bind HR.
    destruct (a.2); apply ret_Done in HR as [[= <-] _]. reflexivity.
Qed.

Lemma AssignableTo_refl (t : rtype) : AssignableTo Implements t t = true.
Proof. unfold AssignableTo. rewrite bool_decide_eq_true_2 by done. reflexivity. Qed.

(** Running the factory of [*T]: the factory of [T] runs first; its error is
    passed on; its value is stored in a new cell and a reference to that cell
    is returned. *)
Lemma pointer_factory_run (elem : rtype) ebody resolver w built w1 :
  gdf elem = (Some ebody, None) →
  run resolver ebody w = Done built w1 →
  ∃ pbody,
    gdf (TPointer elem) = (Some pbody, None) ∧
    run resolver pbody w =
    match built.2 with
    | Some err => Done (Nil, Some err) w1
    | None =>
        Done (Ref (TPointer elem) (length (heap w1)), None)
          (withHeap (heap w1 ++ [built.1]) w1)
    end.
Proof.
  intros He HR. simpl. rewrite He. simpl. eexists. split; [reflexivity|].
  rewrite run_andThen. unfold bind at 1. simpl call. rewrite HR.
  destruct built as [ev [err|]]; simpl; [reflexivity|].
  rewrite (default_factory_type _ _ _ _ _ _ He HR), AssignableTo_refl.
  unfold bind, allocCell. simpl. unfold bind, storeCell. simpl.
  rewrite lookup_app_r by lia. rewrite Nat.sub_diag. simpl.
  unfold ret, withHeap. simpl. f_equal. f_equal.
  rewrite insert_app_r_alt by lia. rewrite Nat.sub_diag. reflexivity.
Qed.

(** [n] levels of pointer indirection over [T]. *)
Fixpoint pointerTo (n : nat) (T : rtype) : rtype :=
  match n with
  | O => T
  | S n' => TPointer (pointerTo n' T)
  end.

(** Following a reference [n] times in a heap. *)
Fixpoint derefN (n : nat) (h : list any) (v : any) : option any :=
  match n with
  | O => Some v
  | S n' =>
      match v with
      | Ref _ a => h !! a ≫= derefN n' h
      | _ => None
      end
  end.

Lemma hasDefaultFactory_pointerTo n T :
  hasDefaultFactory (pointerTo n T) ↔ hasDefaultFactory T.
Proof.
  induction n as [|n IH]; simpl; [reflexivity|].
  rewrite <- IH. apply hasDefaultFactory_pointer.
Qed.

Lemma getDefaultFactory_pointerTo_none n T :
  ¬ hasDefaultFactory T →
  gdf (pointerTo n T) = (None, Some (NoDefaultFactory (pointerTo n T))).
Proof.
  intros Hno. destruct n as [|n]; simpl pointerTo.
  - destruct (getDefaultFactory_shape T) as [Hyes|H]; [contradiction|exact H].
  - apply getDefaultFactory_pointer_none.
    rewrite hasDefaultFactory_pointerTo. exact Hno.
Qed.

Lemma derefN_app n h h' v x :
  derefN n h v = Some x → derefN n (h ++ h') v = Some x.
Proof.
  revert v. induction n as [|n IH]; intros v H; simpl in *; [exact H|].
  destruct v as [| |t a| |]; try discriminate.
  destruct (h !! a) as [c|] eqn:Hc; [|discriminate]. simpl in H.
  rewrite (lookup_app_l_Some _ _ _ _ Hc). simpl. auto.
Qed.

Lemma pointerTo_factory_run n T body resolver w v w1 :
  gdf T = (Some body, None) →
  run resolver body w = Done (v, None) w1 →
  ∃ pbody pv w2,
    gdf (pointerTo n T) = (Some pbody, None) ∧
    run resolver pbody w = Done (pv, None) w2 ∧
    TypeOf pv = Some (pointerTo n T) ∧
    derefN n (heap w2) pv = Some v.
Proof.
  intros Hf HR. induction n as [|n IH]; simpl pointerTo.
  - exists body, v, w1. repeat split; auto.
    eapply default_factory_type; eauto.
  - destruct IH as (pbody & pv & w2 & Hpf & Hprun & Hty & Hderef).
    destruct (pointer_factory_run _ _ _ _ _ _ Hpf Hprun) as (ppbody & Hppf & Hpprun).
    simpl in Hpprun. eexists _, _, _. split; [exact Hppf|].
    split; [exact Hpprun|]. split; [reflexivity|].
    simpl. rewrite lookup_app_r by lia. rewrite Nat.sub_diag. simpl.
    apply derefN_app. exact Hderef.
Qed.

(** C6.  For every type [T] and every number of pointer levels above it
    ([*T], [**T], ...): the pointer type has a default factory exactly when
    [T] has one; when it has none, the error is [NoDefaultFactory] for the
    pointer type that was asked about; when it has one and the factory of [T]
    returns a value, the pointer factory returns, in the same run, a value of
    the pointer type that is a non-nil reference at every level and leads to
    that value of [T]. *)
Theorem default_pointer_factory (T : rtype) (n : nat) :
  (hasDefaultFactory (pointerTo (S n) T) ↔ hasDefaultFactory T) ∧
  (¬ hasDefaultFactory T →
   gdf (pointerTo (S n) T) =
   (None, Some (NoDefaultFactory (pointerTo (S n) T)))) ∧
  (∀ body resolver w v w1,
     gdf T = (Some body, None) →
     run resolver body w = Done (v, None) w1 →
     ∃ pbody pv w2,
       gdf (pointerTo (S n) T) = (Some pbody, None) ∧
       run resolver pbody w = Done (pv, None) w2 ∧
       TypeOf pv = Some (pointerTo (S n) T) ∧
       derefN (S n) (heap w2) pv = Some v).
Proof.
  split; [apply hasDefaultFactory_pointerTo|].
  split; [apply getDefaultFactory_pointerTo_none|].
  intros body resolver w v w1 Hf HR.
  apply (pointerTo_factory_run (S n) T body resolver w v w1 Hf HR).
Qed.

(** The error of the element factory is the error of the pointer factory. *)
Lemma pointer_factory_error (T : rtype) body resolver w v err w1 :
  gdf T = (Some body, None) →
  run resolver body w = Done (v, Some err) w1 →
  ∃ pbody,
    gdf (TPointer T) = (Some pbody, None) ∧
    run resolver pbody w = Done (Nil, Some err) w1.
Proof.
  intros Hf HR.
  destruct (pointer_factory_run _ _ _ _ _ _ Hf HR) as (pbody & Hp & Hrun).
  eauto.
Qed.

End PointerFactories.

(** ** Registration *)

Definition withRegistries (rs : list (gmap rtype registration)) (w : world)
    : world :=
  {| heap := heap w; registries := rs;
     instanceMaps := instanceMaps w; invoked := invoked w |}.

(** The registration that a registry value holds for [typ] in a store. *)
Definition registryLookup (r : Registry) (typ : rtype) (w : world)
    : option registration :=
  l ← registrations r; m ← registries w !! l; m !! typ.

(** *** Resolving does not look at registration maps *)

Definition mapWorld {A} (f : world → world) (o : outcome A) : outcome A :=
  match o with
  | Done a w => Done a (f w)
  | Deadlock => Deadlock
  | Panicked => Panicked
  | OutOfFuel => OutOfFuel
  end.

(** A computation that neither reads nor writes the registration maps. *)
Definition ignoresRegistries {A} (m : M A) : Prop :=
  ∀ rs w, m (withRegistries rs w) = mapWorld (withRegistries rs) (m w).

Lemma ignoresRegistries_ret {A} (a : A) : ignoresRegistries (ret a).
Proof. intros rs w. reflexivity. Qed.

Lemma ignoresRegistries_bind {A B} (m : M A) (k : A → M B) :
  ignoresRegistries m → (∀ a, ignoresRegistries (k a)) →
  ignoresRegistries (bind m k).
Proof.
  intros Hm Hk rs w. unfold bind. rewrite Hm.
  destruct (m w) as [a w1| | |]; simpl; auto. apply Hk.
Qed.

Lemma ignoresRegistries_Lock m : ignoresRegistries (Lock m).
Proof.
  intros rs w. unfold Lock. simpl.
  destruct (instanceMaps w !! m) as [im|]; [|reflexivity].
  destruct (mu im); reflexivity.
Qed.

Lemma ignoresRegistries_Unlock m : ignoresRegistries (Unlock m).
Proof.
  intros rs w. unfold Unlock. simpl.
  destruct (instanceMaps w !! m) as [im|]; reflexivity.
Qed.

Lemma ignoresRegistries_readInstance m typ :
  ignoresRegistries (readInstance m typ).
Proof.
  intros rs w. unfold readInstance. simpl.
  destruct (instanceMaps w !! m) as [im|]; [|reflexivity].
  destruct (mapLookup (instances im) typ); reflexivity.
Qed.

Lemma ignoresRegistries_saveInstance m typ service :
  ignoresRegistries (saveInstance m typ service).
Proof.
  intros rs w. unfold saveInstance. simpl.
  destruct (instanceMaps w !! m) as [im|]; reflexivity.
Qed.

Lemma ignoresRegistries_get m typ : ignoresRegistries (instanceMap_get m typ).
Proof.
  intros rs w. unfold instanceMap_get. simpl.
  destruct (instanceMaps w !! m) as [im|] eqn:Him; [|reflexivity].
  destruct (mu im); [reflexivity|].
  apply ignoresRegistries_readInstance.
Qed.

Lemma ignoresRegistries_noteInvoked typ : ignoresRegistries (noteInvoked typ).
Proof. intros rs w. reflexivity. Qed.

Lemma ignoresRegistries_run resolver body :
  (∀ typ, ignoresRegistries (resolver typ)) →
  ignoresRegistries (run resolver body).
Proof.
  intros Hres.
  induction body as [v err|typ k IH|v k IH|a k IH|a v k IH|]; simpl.
  - apply ignoresRegistries_ret.
  - apply ignoresRegistries_bind; auto.
  - apply ignoresRegistries_bind; auto. intros rs w. reflexivity.
  - apply ignoresRegistries_bind; auto. intros rs w. unfold loadCell. simpl.
    destruct (heap w !! a); reflexivity.
  - apply ignoresRegistries_bind; auto. intros rs w. unfold storeCell. simpl.
    destruct (heap w !! a); reflexivity.
  - intros rs w. reflexivity.
Qed.

Lemma ignoresRegistries_resolve m typ factory resolver :
  (∀ typ', ignoresRegistries (resolver typ')) →
  ignoresRegistries (instanceMap_resolve m typ factory resolver).
Proof.
  intros Hres. unfold instanceMap_resolve.
  apply ignoresRegistries_bind; [apply ignoresRegistries_get|].
  intros got. destruct (got.2); [apply ignoresRegistries_ret|].
  apply ignoresRegistries_bind; [apply ignoresRegistries_Lock|]. intros _.
  apply ignoresRegistries_bind; [apply ignoresRegistries_readInstance|].
  intros again. destruct (again.2).
  { apply ignoresRegistries_bind; [apply ignoresRegistries_Unlock|].
    intros _. apply ignoresRegistries_ret. }
  apply ignoresRegistries_bind; [apply ignoresRegistries_noteInvoked|]. intros _.
  apply ignoresRegistries_bind; [apply ignoresRegistries_run; exact Hres|].
  intros built. destruct (built.2).
  - apply ignoresRegistries_bind; [apply ignoresRegistries_Unlock|].
    intros _. apply ignoresRegistries_ret.
  - apply ignoresRegistries_bind; [apply ignoresRegistries_saveInstance|].
    intros _. apply ignoresRegistries_bind; [apply ignoresRegistries_Unlock|].
    intros _. apply ignoresRegistries_ret.
Qed.

Lemma ignoresRegistries_RootProvider fuel provider typ :
  ignoresRegistries (RootProvider_Resolve fuel provider typ).
Proof.
  revert typ. induction fuel as [|fuel IH]; intros typ; simpl.
  - intros rs w. reflexivity.
  - destruct (mapLookup (provider_registrations provider) typ) as [reg|];
      [|apply ignoresRegistries_ret].
    repeat case_bool_decide.
    + apply ignoresRegistries_bind; [apply ignoresRegistries_noteInvoked|].
      intros _. apply ignoresRegistries_run. exact IH.
    + apply ignoresRegistries_ret.
    + apply ignoresRegistries_resolve. exact IH.
    + intros rs w. reflexivity.
Qed.

Lemma ignoresRegistries_Scope fuel scope typ :
  ignoresRegistries (Scope_Resolve fuel scope typ).
Proof.
  revert typ. induction fuel as [|fuel IH]; intros typ.
  - intros rs w. reflexivity.
  - cbn [Scope_Resolve].
    destruct (mapLookup (provider_registrations (root scope)) typ) as [reg|];
      [|apply ignoresRegistries_RootProvider].
    case_bool_decide.
    + apply ignoresRegistries_resolve. exact IH.
    + apply ignoresRegistries_RootProvider.
Qed.

Lemma ignoresRegistries_ResolveAt provider e fuel typ :
  ignoresRegistries (ResolveAt provider e fuel typ).
Proof.
  destruct e; [apply ignoresRegistries_RootProvider|apply ignoresRegistries_Scope].
Qed.

Section Registration.

Variable StructFields : string → list StructField.
Variable Implements : rtype → rtype → bool.

Lemma kindOf_Interface (typ : rtype) :
  kindOf typ = Interface → ∃ name, typ = TInterface name.
Proof. destruct typ as [[]| | | | | | | |]; try discriminate. eauto. Qed.

(** [RegisterFactory] rejects an interface as implementation type. *)
Lemma RegisterFactory_interface_impl target impl registry lifetime factory w :
  kindOf impl = Interface →
  RegisterFactory Implements target impl registry lifetime factory w =
  Done (registry, Some (NonConcreteImplementation impl)) w.
Proof.
  intros Hk. unfold RegisterFactory, validateRegistrationTypes, isConcrete.
  rewrite Hk. reflexivity.
Qed.

(** C7, what the code does.  [RegisterType] asks for the default factory of
    the implementation type before it validates the types, so for an interface
    it returns [NoDefaultFactory], where [RegisterFactory] returns
    [NonConcreteImplementation]. *)
Theorem RegisterType_interface_impl target impl registry lifetime w :
  kindOf impl = Interface →
  RegisterType StructFields Implements target impl registry lifetime w =
  Done (registry, Some (NoDefaultFactory impl)) w ∧
  ∀ factory,
    RegisterFactory Implements target impl registry lifetime factory w =
    Done (registry, Some (NonConcreteImplementation impl)) w.
Proof.
  intros Hk. split.
  - apply kindOf_Interface in Hk as [name ->]. reflexivity.
  - intros factory. apply RegisterFactory_interface_impl. exact Hk.
Qed.

(** C8.  An implementation type that is neither a pointer nor a channel
    passes [validateLifetime] with [Transient] and fails it with
    [UnsharableType], carrying the type and the lifetime, for [Scoped] and for
    [Singleton]; and when the types of the registration are valid, that is
    the error [RegisterFactory] returns, with the registry it was given. *)
Theorem validateLifetime_unsharable (impl : rtype) :
  kindOf impl ≠ Pointer → kindOf impl ≠ Chan →
  validateLifetime impl Transient = None ∧
  validateLifetime impl Scoped = Some (UnsharableType impl Scoped) ∧
  validateLifetime impl Singleton = Some (UnsharableType impl Singleton) ∧
  ∀ target registry factory w,
    validateRegistrationTypes Implements target impl = None →
    RegisterFactory Implements target impl registry Scoped factory w =
      Done (registry, Some (UnsharableType impl Scoped)) w ∧
    RegisterFactory Implements target impl registry Singleton factory w =
      Done (registry, Some (UnsharableType impl Singleton)) w.
Proof.
  intros Hp Hc.
  assert (Hsh : isSharable impl = false).
  { unfold isSharable. rewrite !bool_decide_eq_false_2 by done. reflexivity. }
  assert (H2 : validateLifetime impl Scoped = Some (UnsharableType impl Scoped)).
  { unfold validateLifetime. rewrite Hsh. reflexivity. }
  assert (H3 : validateLifetime impl Singleton = Some (UnsharableType impl Singleton)).
  { unfold validateLifetime. rewrite Hsh. reflexivity. }
  split; [reflexivity|]. split; [exact H2|]. split; [exact H3|].
  intros target registry factory w Hv. unfold RegisterFactory.
  rewrite Hv, H2, H3. split; reflexivity.
Qed.

(** C9 as the specification states it: after a successful registration the
    registry value that was passed in holds what it held before. *)
Definition registration_pure_as_stated : Prop :=
  ∀ target impl r lifetime factory r' w w' typ,
    RegisterFactory Implements target impl r lifetime factory w =
      Done (r', None) w' →
    registryLookup r typ w' = registryLookup r typ w.

(** A registration call that fails returns the registry it was given and
    changes nothing. *)
Lemma RegisterFactory_error target impl r lifetime factory r' err w w' :
  RegisterFactory Implements target impl r lifetime factory w =
    Done (r', Some err) w' →
  r' = r ∧ w' = w.
Proof.
  unfold RegisterFactory.
  destruct (validateRegistrationTypes Implements target impl);
    [intros [= <- _ <-]; auto|].
  destruct (validateLifetime impl lifetime); [intros [= <- _ <-]; auto|].
  destruct factory as [body|]; [|intros [= <- _ <-]; auto].
  intros H. inv_bind H. apply ret_Done in H as [[=] _].
Qed.

(** [BuildRootProvider] takes the registrations as they are at the time of
    the call; the provider holds them by value. *)
Lemma BuildRootProvider_snapshot r w p err w' :
  BuildRootProvider r w = Done (p, err) w' →
  err = None ∧
  (∀ typ, mapLookup (provider_registrations p) typ = registryLookup r typ w) ∧
  singletons p = length (instanceMaps w) ∧
  registries w' = registries w ∧ heap w' = heap w ∧ invoked w' = invoked w ∧
  instanceMaps w' = instanceMaps w ++ [{| mu := false; instances := None |}].
Proof.
  unfold BuildRootProvider. intros H. inv_bind H. inv_bind H.
  apply ret_Done in H as [[= <- <-] <-].
  injection Hrun0 as <- <-.
  unfold cloneRegistrations in Hrun. unfold registryLookup, mapLookup.
  destruct (registrations r) as [l|]; simpl.
  - destruct (registries w !! l) as [regs|]; [|discriminate].
    injection Hrun as <- <-. simpl. repeat split; reflexivity.
  - injection Hrun as <- <-. repeat split; reflexivity.
Qed.

(** C9, amended.  A registration call whose types, lifetime and factory are
    valid returns a registry holding the new registration, and it does so by
    writing into the registry's map.  For a registry whose map is nil a new
    map is made: the registry passed in still holds nothing.  Otherwise the
    map is the one the registry passed in refers to: the returned registry is
    that same value, which now maps the target type to the new registration
    and every other type as before.  In both cases nothing else in the store
    changes, and every root provider and scope resolves after the call as it
    did before. *)
Theorem RegisterFactory_in_place target impl r lifetime body w :
  validateRegistrationTypes Implements target impl = None →
  validateLifetime impl lifetime = None →
  match registrations r with
  | None =>
      ∃ r' w',
        RegisterFactory Implements target impl r lifetime (Some body) w =
          Done (r', None) w' ∧
        r' = {| registrations := Some (length (registries w)) |} ∧
        w' = withRegistries
               (registries w ++
                  [{[target := {| lifetime := lifetime; factory := body |}]}]) w ∧
        (∀ typ, registryLookup r typ w' = None) ∧
        (∀ provider e fuel typ,
           ResolveAt provider e fuel typ w' =
           mapWorld (withRegistries (registries w'))
             (ResolveAt provider e fuel typ w))
  | Some l =>
      ∀ regs, registries w !! l = Some regs →
      ∃ w',
        RegisterFactory Implements target impl r lifetime (Some body) w =
          Done (r, None) w' ∧
        w' = withRegistries
               (<[l := <[target := {| lifetime := lifetime; factory := body |}]>
                         regs]> (registries w)) w ∧
        registryLookup r target w' =
          Some {| lifetime := lifetime; factory := body |} ∧
        (∀ typ, typ ≠ target →
           registryLookup r typ w' = registryLookup r typ w) ∧
        (∀ provider e fuel typ,
           ResolveAt provider e fuel typ w' =
           mapWorld (withRegistries (registries w'))
             (ResolveAt provider e fuel typ w))
  end.
Proof.
  intros Hv Hl. unfold RegisterFactory. rewrite Hv, Hl.
  destruct r as [[l|]]; simpl.
  - intros regs Hregs. eexists. split.
    + unfold bind, addRegistration, bind, ret, setRegistration. simpl.
      rewrite Hregs. reflexivity.
    + split; [reflexivity|].
      assert (Hlt : (l < length (registries w))%nat)
        by (eapply lookup_lt_Some; eauto).
      unfold registryLookup. simpl.
      rewrite list_lookup_insert_eq by exact Hlt. simpl. split.
      { apply lookup_insert_eq. }
      split.
      { intros typ Hne. rewrite Hregs. simpl. apply lookup_insert_ne. auto. }
      intros provider e fuel typ.
      apply (ignoresRegistries_ResolveAt provider e fuel typ _ w).
  - eexists _, _. split.
    + unfold bind, addRegistration, bind, makeRegistrations, ret,
        setRegistration. simpl.
      rewrite lookup_app_r by lia. rewrite Nat.sub_diag. simpl. reflexivity.
    + split; [reflexivity|]. split.
      { unfold withRegistries. simpl. f_equal.
        rewrite insert_app_r_alt by lia. rewrite Nat.sub_diag. simpl.
        rewrite insert_empty. reflexivity. }
      split; [reflexivity|].
      intros provider e fuel typ.
      apply (ignoresRegistries_ResolveAt provider e fuel typ _ w).
Qed.

(** C10.  When the resolver returns a nil value and a nil error, [Resolve[T]]
    returns [InvalidResolution] with [T] as the requested type and the nil
    type as the returned one, for every [T], interface types included: the
    error is never nil. *)
Theorem Resolve_nil_value (T : rtype) (resolver : Resolver) w w' :
  resolver T w = Done (Nil, None) w' →
  Resolve Implements T (Some resolver) w =
  Done (zeroValue T, Some (InvalidResolution T None)) w'.
Proof.
  intros H. unfold Resolve, bind. rewrite H. reflexivity.
Qed.

End Registration.

(** ** Default pointer factories allocate *)

Lemma GetDefaultFactory_pointer_allocates StructFields Implements T body :
  GetDefaultFactory StructFields Implements (TPointer T) = (Some body, None) →
  allocates body.
Proof.
  unfold GetDefaultFactory. simpl getDefaultFactory.
  destruct (getDefaultFactory_shape StructFields Implements T)
    as [[ebody He]|He]; rewrite He; simpl; [|discriminate].
  intros [= <-]. intros resolver w v w' Hord HR.
  rewrite run_andThen in HR. inv_bind HR. simpl call in Hrun.
  rewrite run_andThen in Hrun. inv_bind Hrun. simpl call in Hrun0.
  pose proof (run_evolves _ _ Hord _ _ _ Hrun0) as (Hheap & _).
  destruct a0 as [ev [eerr|]]; simpl in Hrun.
  - apply ret_Done in Hrun as [<- <-]. simpl in HR.
    apply ret_Done in HR as [[=] _].
  - rewrite (default_factory_type _ _ _ _ _ _ _ _ He Hrun0),
      AssignableTo_refl in Hrun.
    unfold bind, allocCell in Hrun. simpl in Hrun.
    unfold bind, storeCell in Hrun. simpl in Hrun.
    rewrite lookup_app_r in Hrun by lia. rewrite Nat.sub_diag in Hrun.
    simpl in Hrun. injection Hrun as <- <-. simpl in HR.
    destruct (typeAssert Implements _ _); [|discriminate].
    apply ret_Done in HR as [[= <-] <-].
    eexists _, _. split; [reflexivity|]. simpl.
    rewrite length_insert, length_app. simpl. lia.
Qed.

(** * Concrete runs *)

(** The types of the package's tests: [distinctCapableStruct] with one
    private field, [*distinctCapableStruct], [io.Reader], [io.ReadWriter]. *)
Definition exFields : string → list StructField :=
  λ name,
    if bool_decide (name = "distinctCapableStruct"%string)
    then [{| Name := "x"; PkgPath := "di"; Type_ := TBasic BInt |}]
    else [].

Definition exImplements : rtype → rtype → bool := λ _ _, false.

Definition exStruct : rtype := TStruct "distinctCapableStruct".
Definition exPtr : rtype := TPointer exStruct.
Definition exReader : rtype := TInterface "io.Reader".
Definition exReadWriter : rtype := TInterface "io.ReadWriter".

(** The factory that [RegisterType[*distinctCapableStruct, ...]] registers. *)
Definition exDefaultBody : factoryFunc :=
  call (GetDefaultFactory exFields exImplements exPtr).1.

Definition exRegistration (l : Lifetime) (body : factoryFunc) : registration :=
  {| lifetime := l; factory := body |}.

Definition exProvider (l : Lifetime) (body : factoryFunc) : RootProvider :=
  {| provider_registrations := Some {[exPtr := exRegistration l body]};
     singletons := 0 |}.

(** A store with the singleton cache of [exProvider] and the caches of two
    scopes, all empty. *)
Definition exWorld (cells : list any) : world :=
  {| heap := cells; registries := [];
     instanceMaps := [ {| mu := false; instances := None |};
                       {| mu := false; instances := None |};
                       {| mu := false; instances := None |} ];
     invoked := [] |}.

Definition exScope (l : Lifetime) (body : factoryFunc) (m : nat) : Scope :=
  {| root := exProvider l body; scopedValues := m |}.

Definition worldOf {A} (o : outcome A) (w : world) : world :=
  match o with
  | Done _ w' => w'
  | _ => w
  end.

(** [exProvider] and its two scopes are what the package builds. *)
Example exProvider_built :
  (reg <- RegisterType exFields exImplements exPtr exPtr
            {| registrations := None |} Singleton ;;
   built <- BuildRootProvider reg.1 ;;
   s1 <- RootProvider_NewScope built.1 ;;
   s2 <- Scope_NewScope s1 ;;
   ret (reg.2, built, s1, s2))
    {| heap := []; registries := []; instanceMaps := []; invoked := [] |}
  = Done (None, (exProvider Singleton exDefaultBody, None),
          exScope Singleton exDefaultBody 1, exScope Singleton exDefaultBody 2)
      (withRegistries
         [{[exPtr := exRegistration Singleton exDefaultBody]}] (exWorld [])).
Proof. vm_compute. reflexivity. Qed.

(** The struct factory leaves the private field at its zero value and makes
    no call. *)
Example exDefaultBody_run :
  run (RootProvider_Resolve 1 (exProvider Transient exDefaultBody))
    exDefaultBody (exWorld [])
  = Done (Ref exPtr 0, None)
      (withHeap [StructV exStruct [Zero (TBasic BInt)]] (exWorld [])).
Proof. vm_compute. reflexivity. Qed.

(** *** C1 *)

Definition exSingleton : RootProvider := exProvider Singleton exDefaultBody.

Definition exAfterRoot : world :=
  worldOf (RootProvider_Resolve 3 exSingleton exPtr (exWorld [])) (exWorld []).

Definition exAfterNewScope : world :=
  worldOf (RootProvider_NewScope exSingleton exAfterRoot) exAfterRoot.

(** The singleton made by a resolve on the root is what every entry point
    returns after a scope has been added. *)
Lemma singleton_identical_witness :
  (∀ e2 fuel2, belongs exSingleton e2 →
     ResolveAt exSingleton e2 (S fuel2) exPtr exAfterNewScope =
     Done (Ref exPtr 0, None) exAfterNewScope) ∧
  invocations exPtr exAfterNewScope = invocations exPtr exAfterRoot.
Proof.
  apply (singleton_identical exSingleton exPtr
           (exRegistration Singleton exDefaultBody) AtRoot 3 (Ref exPtr 0)
           (exWorld []) exAfterRoot exAfterNewScope).
  - vm_compute. reflexivity.
  - reflexivity.
  - exact I.
  - vm_compute. reflexivity.
  - apply rtc_once.
    apply (step_NewScope exSingleton (exScope Singleton exDefaultBody 3)).
    vm_compute. reflexivity.
Defined.

(** A factory that fails on its first call and succeeds afterwards; cell 0
    counts the attempts. *)
Definition exFlakyBody : factoryFunc :=
  LoadCell 0 (λ attempts,
    match attempts with
    | Scalar _ 0 =>
        StoreCell 0 (Scalar (TBasic BInt) 1)
          (Return (Zero exPtr) (Some (errorsNew "not ready")))
    | _ =>
        AllocCell (StructV exStruct [Zero (TBasic BInt)])
          (λ a, Return (Ref exPtr a) None)
    end).

Definition exFlaky : RootProvider := exProvider Singleton exFlakyBody.

Definition exFlakyWorld : world := exWorld [Scalar (TBasic BInt) 0].

Definition exFlakyFirst : outcome result :=
  RootProvider_Resolve 2 exFlaky exPtr exFlakyWorld.

Definition exFlakySecond : outcome result :=
  RootProvider_Resolve 2 exFlaky exPtr (worldOf exFlakyFirst exFlakyWorld).

Example exFlaky_runs :
  (∃ w1, exFlakyFirst = Done (Nil, Some (errorsNew "not ready")) w1 ∧
         invocations exPtr w1 = 1%nat) ∧
  (∃ w2, exFlakySecond = Done (Ref exPtr 1, None) w2 ∧
         invocations exPtr w2 = 2%nat).
Proof. split; eexists; split; vm_compute; reflexivity. Qed.

(** The factory of a singleton is called again after a failed construction:
    two calls of [Resolve], two calls of the factory, two different results. *)
Lemma singleton_claim_fails : ¬ singleton_claim_as_stated.
Proof.
  intros H.
  destruct (H exFlaky exPtr (exRegistration Singleton exFlakyBody)
              AtRoot AtRoot 2%nat 2%nat
              (Nil, Some (errorsNew "not ready")) (Ref exPtr 1, None)
              exFlakyWorld (worldOf exFlakyFirst exFlakyWorld)
              (worldOf exFlakySecond exFlakyWorld)) as [Hsame Hcalls].
  - vm_compute. reflexivity.
  - reflexivity.
  - exact I.
  - exact I.
  - vm_compute. reflexivity.
  - vm_compute. reflexivity.
  - discriminate Hsame.
Qed.

(** *** C2 *)

Definition exScoped : RootProvider := exProvider Scoped exDefaultBody.
Definition exScopeA : Scope := exScope Scoped exDefaultBody 1.
Definition exScopeB : Scope := exScope Scoped exDefaultBody 2.

Definition exAfterA : world :=
  worldOf (Scope_Resolve 3 exScopeA exPtr (exWorld [])) (exWorld []).

Definition exAfterB : world :=
  worldOf (Scope_Resolve 3 exScopeB exPtr exAfterA) exAfterA.

Lemma scoped_per_scope_witness :
  (∀ fuel, Scope_Resolve (S fuel) exScopeA exPtr exAfterA =
           Done (Ref exPtr 0, None) exAfterA) ∧
  (cached (scopedValues exScopeB) exPtr exAfterA = None →
   Scope_Resolve 3 exScopeB exPtr exAfterA = Done (Ref exPtr 1, None) exAfterB →
   (∃ l, invoked exAfterB = l ++ exPtr :: invoked exAfterA) ∧
   (∃ wf, run (Scope_Resolve (pred 3) exScopeB) (factory (exRegistration Scoped exDefaultBody))
            (underLock (scopedValues exScopeB) exPtr exAfterA) =
          Done (Ref exPtr 1, None) wf) ∧
   (∀ fuel, Scope_Resolve (S fuel) exScopeB exPtr exAfterB =
            Done (Ref exPtr 1, None) exAfterB) ∧
   (∀ fuel, Scope_Resolve (S fuel) exScopeA exPtr exAfterB =
            Done (Ref exPtr 0, None) exAfterB) ∧
   (allocates (factory (exRegistration Scoped exDefaultBody)) →
    cached (scopedValues exScopeA) exPtr (exWorld []) = None →
    Ref exPtr 0 ≠ Ref exPtr 1)).
Proof.
  apply (scoped_per_scope exScoped exPtr (exRegistration Scoped exDefaultBody)
           exScopeA exScopeB 3 3 (Ref exPtr 0) (Ref exPtr 1)
           (exWorld []) exAfterA exAfterA exAfterB).
  - vm_compute. reflexivity.
  - reflexivity.
  - reflexivity.
  - reflexivity.
  - vm_compute. reflexivity.
  - apply rtc_refl.
Defined.

(** With the derived factory the second scope does get an instance of its
    own. *)
Example exScopes_distinct :
  Scope_Resolve 3 exScopeA exPtr (exWorld []) = Done (Ref exPtr 0, None) exAfterA ∧
  Scope_Resolve 3 exScopeB exPtr exAfterA = Done (Ref exPtr 1, None) exAfterB ∧
  invocations exPtr exAfterB = 2%nat.
Proof. repeat split; vm_compute; reflexivity. Qed.

(** A factory that hands out one instance made beforehand, cell 0: a
    function whose body is [return shared, nil]. *)
Definition exSharedBody : factoryFunc := Return (Ref exPtr 0) None.

Definition exSharedWorld : world :=
  exWorld [StructV exStruct [Zero (TBasic BInt)]].

Definition exSharedA : Scope := exScope Scoped exSharedBody 1.
Definition exSharedB : Scope := exScope Scoped exSharedBody 2.

Definition exSharedAfterA : world :=
  worldOf (Scope_Resolve 2 exSharedA exPtr exSharedWorld) exSharedWorld.

Definition exSharedAfterB : world :=
  worldOf (Scope_Resolve 2 exSharedB exPtr exSharedAfterA) exSharedAfterA.

(** Two scopes of one root return the same instance when the registered
    factory returns the same instance on each call. *)
Lemma scoped_claim_fails : ¬ scoped_claim_as_stated.
Proof.
  intros H.
  destruct (H (exProvider Scoped exSharedBody) exPtr
              (exRegistration Scoped exSharedBody) exSharedA exSharedB
              2%nat 2%nat 2%nat (Ref exPtr 0) (Ref exPtr 0) (Ref exPtr 0)
              exSharedWorld exSharedAfterA exSharedAfterA exSharedAfterB)
    as [_ Hdiff].
  - vm_compute. reflexivity.
  - reflexivity.
  - reflexivity.
  - reflexivity.
  - simpl. lia.
  - vm_compute. reflexivity.
  - vm_compute. reflexivity.
  - vm_compute. reflexivity.
  - apply Hdiff. reflexivity.
Qed.

(** Two singletons in one provider, the first built from the second: the
    resolve inside the factory asks for the read lock of the cache whose
    write lock the outer resolve holds, also when the second singleton is in
    the cache already. *)
Definition exDependentBody : factoryFunc :=
  CallResolve exPtr (λ dep err,
    match err with
    | Some e => Return (Zero (TPointer exPtr)) (Some e)
    | None => AllocCell dep (λ a, Return (Ref (TPointer exPtr) a) None)
    end).

Definition exDependent : RootProvider :=
  {| provider_registrations :=
       Some (<[TPointer exPtr := exRegistration Singleton exDependentBody]>
               {[exPtr := exRegistration Singleton exDefaultBody]});
     singletons := 0 |}.

Example exDependent_singletons :
  RootProvider_Resolve 3 exDependent (TPointer exPtr) (exWorld []) = Deadlock ∧
  ∃ w1,
    RootProvider_Resolve 3 exDependent exPtr (exWorld []) =
      Done (Ref exPtr 0, None) w1 ∧
    RootProvider_Resolve 3 exDependent (TPointer exPtr) w1 = Deadlock.
Proof. split; [|eexists; split]; vm_compute; reflexivity. Qed.

(** *** C3 *)

Definition exRootResolver : Resolver := RootProvider_Resolve 1 exSingleton.

Definition exBuilt : outcome result :=
  run exRootResolver exDefaultBody (underLock 0 exPtr (exWorld [])).

(** A construction that succeeds is stored and served from the cache. *)
Lemma instanceMap_resolve_memoizes_witness :
  ∃ w',
    instanceMap_resolve 0 exPtr exDefaultBody exRootResolver (exWorld []) =
      Done (Ref exPtr 0, None) w' ∧
    cached 0 exPtr w' = Some (Ref exPtr 0) ∧
    (∀ w2 factory' resolver',
       evolves w' w2 →
       instanceMap_resolve 0 exPtr factory' resolver' w2 =
       Done (Ref exPtr 0, None) w2).
Proof.
  apply (instanceMap_resolve_memoizes 0 exPtr exDefaultBody exRootResolver
           (exWorld []) (Ref exPtr 0, None)
           (worldOf exBuilt (exWorld []))).
  - apply RootProvider_Resolve_orderly.
  - eexists. split; reflexivity.
  - reflexivity.
  - vm_compute. reflexivity.
Defined.

(** A construction that fails leaves the cache as it was, and the next
    resolve calls the factory again. *)
Example exFlaky_not_cached :
  ∃ w1 w2,
    instanceMap_resolve 0 exPtr exFlakyBody exRootResolver exFlakyWorld =
      Done (Nil, Some (errorsNew "not ready")) w1 ∧
    instanceMaps w1 = instanceMaps exFlakyWorld ∧
    instanceMap_resolve 0 exPtr exFlakyBody exRootResolver w1 =
      Done (Ref exPtr 1, None) w2 ∧
    invoked w2 = [exPtr; exPtr].
Proof. eexists _, _. repeat split; vm_compute; reflexivity. Qed.

(** *** C4 *)

Lemma RootProvider_Resolve_scoped_witness :
  RootProvider_Resolve 1 exScoped exPtr (exWorld []) =
  Done (Nil, Some (ScopedValueRequestedFromRootProvider exPtr)) (exWorld []).
Proof.
  apply (RootProvider_Resolve_scoped 0 exScoped exPtr
           (exRegistration Scoped exDefaultBody) (exWorld [])).
  - vm_compute. reflexivity.
  - reflexivity.
Defined.

(** *** C5 *)

(** The struct [thing] of the package's tests, with a public and a private
    field, and a resolver that knows [int]. *)
Definition exThingFields : string → list StructField :=
  λ _, [ {| Name := "X"; PkgPath := EmptyString; Type_ := TBasic BInt |};
         {| Name := "y"; PkgPath := "di"; Type_ := TBasic BFloat64 |} ].

Definition exIntResolver : Resolver :=
  λ typ, if bool_decide (typ = TBasic BInt)
         then ret (Scalar (TBasic BInt) 42, None)
         else ret (Nil, Some (errorsNew "unexpected call")).

Example exThing_factory :
  run exIntResolver
    (call (getDefaultFactory exThingFields exImplements (TStruct "thing")).1)
    (exWorld [])
  = Done (StructV (TStruct "thing")
            [Scalar (TBasic BInt) 42; Zero (TBasic BFloat64)], None)
      (exWorld []).
Proof. vm_compute. reflexivity. Qed.

(** *** C6 *)

Example exPointerPointer_factory :
  ∃ w,
    run exIntResolver
      (call (getDefaultFactory exThingFields exImplements
               (TPointer (TPointer (TStruct "thing")))).1)
      (exWorld [])
    = Done (Ref (TPointer (TPointer (TStruct "thing"))) 1, None) w ∧
    heap w = [ StructV (TStruct "thing")
                 [Scalar (TBasic BInt) 42; Zero (TBasic BFloat64)];
               Ref (TPointer (TStruct "thing")) 0 ].
Proof. eexists. split; vm_compute; reflexivity. Qed.

Example exPointerFunc_no_factory :
  getDefaultFactory exThingFields exImplements
    (TPointer (TPointer (TFunc "func()")))
  = (None, Some (NoDefaultFactory (TPointer (TPointer (TFunc "func()"))))).
Proof. reflexivity. Qed.

(** *** C7 *)

(** [RegisterType[io.Reader, io.ReadWriter](Registry{}, Transient)], the call
    of the package's test [returns NonConcreteImplementation when Impl is an
    interface]. *)
Lemma RegisterType_interface_impl_witness :
  RegisterType exFields exImplements exReader exReadWriter
    {| registrations := None |} Transient (exWorld []) =
  Done ({| registrations := None |}, Some (NoDefaultFactory exReadWriter))
    (exWorld []) ∧
  ∀ factory,
    RegisterFactory exImplements exReader exReadWriter
      {| registrations := None |} Transient factory (exWorld []) =
    Done ({| registrations := None |},
          Some (NonConcreteImplementation exReadWriter)) (exWorld []).
Proof.
  apply (RegisterType_interface_impl exFields exImplements exReader
           exReadWriter {| registrations := None |} Transient (exWorld [])).
  reflexivity.
Defined.

(** *** C8 *)

Lemma validateLifetime_unsharable_witness :
  validateLifetime exStruct Transient = None ∧
  validateLifetime exStruct Scoped = Some (UnsharableType exStruct Scoped) ∧
  validateLifetime exStruct Singleton =
    Some (UnsharableType exStruct Singleton) ∧
  ∀ target registry factory w,
    validateRegistrationTypes exImplements target exStruct = None →
    RegisterFactory exImplements target exStruct registry Scoped factory w =
      Done (registry, Some (UnsharableType exStruct Scoped)) w ∧
    RegisterFactory exImplements target exStruct registry Singleton factory w =
      Done (registry, Some (UnsharableType exStruct Singleton)) w.
Proof.
  apply (validateLifetime_unsharable exImplements exStruct).
  - discriminate.
  - discriminate.
Defined.

(** *** C9 *)

(** A registry with one registration, for [int], as the first call of
    [RegisterFactory] on [Registry{}] leaves it. *)
Definition exIntBody : factoryFunc := Return (Scalar (TBasic BInt) 7) None.
Definition exStringBody : factoryFunc := Return (Zero (TBasic BString)) None.

Definition exRegistry : Registry := {| registrations := Some 0%nat |}.

Definition exRegistryWorld : world :=
  withRegistries [{[TBasic BInt := exRegistration Transient exIntBody]}]
    (exWorld []).

Example exRegistry_built :
  RegisterFactory exImplements (TBasic BInt) (TBasic BInt)
    {| registrations := None |} Transient (Some exIntBody) (exWorld [])
  = Done (exRegistry, None) exRegistryWorld.
Proof. vm_compute. reflexivity. Qed.

Definition exRegistryAfter : world :=
  worldOf (RegisterFactory exImplements (TBasic BString) (TBasic BString)
             exRegistry Transient (Some exStringBody) exRegistryWorld)
    exRegistryWorld.

(** Registering [string] on that registry changes what the registry value
    passed in holds for [string]. *)
Lemma registration_pure_fails : ¬ registration_pure_as_stated exImplements.
Proof.
  intros H.
  specialize (H (TBasic BString) (TBasic BString) exRegistry Transient
                (Some exStringBody) exRegistry exRegistryWorld exRegistryAfter
                (TBasic BString)).
  assert (Hcall : RegisterFactory exImplements (TBasic BString) (TBasic BString)
                    exRegistry Transient (Some exStringBody) exRegistryWorld
                  = Done (exRegistry, None) exRegistryAfter)
    by (vm_compute; reflexivity).
  specialize (H Hcall). vm_compute in H. discriminate H.
Qed.

Lemma RegisterFactory_in_place_witness :
  ∃ w',
    RegisterFactory exImplements (TBasic BString) (TBasic BString) exRegistry
      Transient (Some exStringBody) exRegistryWorld = Done (exRegistry, None) w' ∧
    w' = withRegistries
           (<[0%nat := <[TBasic BString :=
                           {| lifetime := Transient; factory := exStringBody |}]>
                         {[TBasic BInt := exRegistration Transient exIntBody]}]>
              (registries exRegistryWorld)) exRegistryWorld ∧
    registryLookup exRegistry (TBasic BString) w' =
      Some {| lifetime := Transient; factory := exStringBody |} ∧
    (∀ typ, typ ≠ TBasic BString →
       registryLookup exRegistry typ w' =
       registryLookup exRegistry typ exRegistryWorld) ∧
    (∀ provider e fuel typ,
       ResolveAt provider e fuel typ w' =
       mapWorld (withRegistries (registries w'))
         (ResolveAt provider e fuel typ exRegistryWorld)).
Proof.
  apply (RegisterFactory_in_place exImplements (TBasic BString)
           (TBasic BString) exRegistry Transient exStringBody exRegistryWorld
           eq_refl eq_refl
           {[TBasic BInt := exRegistration Transient exIntBody]}).
  reflexivity.
Defined.

(** A provider built before the second registration does not know
    [string]; one built after it does. *)
Example exProvider_snapshot :
  ∃ before after w1 w2,
    BuildRootProvider exRegistry exRegistryWorld = Done (before, None) w1 ∧
    BuildRootProvider exRegistry exRegistryAfter = Done (after, None) w2 ∧
    mapLookup (provider_registrations before) (TBasic BString) = None ∧
    mapLookup (provider_registrations after) (TBasic BString) =
      Some (exRegistration Transient exStringBody).
Proof. eexists _, _, _, _. repeat split; vm_compute; reflexivity. Qed.

(** *** C10 *)

Definition exNilResolver : Resolver := λ _, ret (Nil, None).

Lemma Resolve_nil_value_witness :
  Resolve exImplements exReader (Some exNilResolver) (exWorld []) =
  Done (zeroValue exReader, Some (InvalidResolution exReader None)) (exWorld []).
Proof.
  apply (Resolve_nil_value exImplements exReader exNilResolver
           (exWorld []) (exWorld [])).
  reflexivity.
Defined.

(** * The rest of the package *)

(** ** lifetime.go: [Lifetime.String] *)

Definition Lifetime_String (lifetime : Lifetime) : string :=
  match knownLifetimes !! lifetime with
  | Some name => name
  | None => "Unknown"%string
  end.

Lemma knownLifetimes_lookup (lifetime : Lifetime) :
  knownLifetimes !! lifetime =
  if bool_decide (lifetime = Transient) then Some "Transient"%string
  else if bool_decide (lifetime = Scoped) then Some "Scoped"%string
  else if bool_decide (lifetime = Singleton) then Some "Singleton"%string
  else None.
Proof.
  unfold knownLifetimes. repeat case_bool_decide; subst.
  - apply lookup_insert_eq.
  - rewrite lookup_insert_ne by done. apply lookup_insert_eq.
  - rewrite !lookup_insert_ne by done. apply lookup_insert_eq.
  - rewrite !lookup_insert_ne by done. apply lookup_empty.
Qed.

Lemma isSharable_kind (impl : rtype) :
  isSharable impl = true ↔ kindOf impl = Pointer ∨ kindOf impl = Chan.
Proof.
  unfold isSharable. repeat case_bool_decide; split; auto; try discriminate.
  intros [?|?]; contradiction.
Qed.

(** X1.  [validateLifetime] in full: a lifetime that is none of the three
    constants is rejected with [UndefinedLifetime] carrying the value,
    whatever the type; [Transient] passes for every type; [Scoped] and
    [Singleton] pass exactly for pointer and channel types. *)
Theorem validateLifetime_cases (impl : rtype) (lifetime : Lifetime) :
  (validateLifetime impl lifetime = Some (UndefinedLifetime lifetime) ↔
   lifetime ≠ Transient ∧ lifetime ≠ Scoped ∧ lifetime ≠ Singleton) ∧
  (validateLifetime impl lifetime = None ↔
   lifetime = Transient ∨
   ((lifetime = Scoped ∨ lifetime = Singleton) ∧
    (kindOf impl = Pointer ∨ kindOf impl = Chan))) ∧
  (validateLifetime impl lifetime = Some (UnsharableType impl lifetime) ↔
   (lifetime = Scoped ∨ lifetime = Singleton) ∧
   kindOf impl ≠ Pointer ∧ kindOf impl ≠ Chan).
Proof.
  unfold validateLifetime. rewrite knownLifetimes_lookup.
  pose proof (isSharable_kind impl) as Hsh.
  destruct (isSharable impl) eqn:Hs.
  - assert (Hk : kindOf impl = Pointer ∨ kindOf impl = Chan) by (apply Hsh; auto).
    repeat case_bool_decide; subst; simpl;
      (split; [|split]); split; try discriminate; try tauto;
      try (intros [= ?]; done); intuition (try discriminate; try congruence).
  - assert (Hk : ¬ (kindOf impl = Pointer ∨ kindOf impl = Chan)).
    { intros H. apply Hsh in H. discriminate. }
    repeat case_bool_decide; subst; simpl;
      (split; [|split]); split; try discriminate; try tauto;
      try (intros [= ?]; done); intuition (try discriminate; try congruence).
Qed.

(** X2.  [Lifetime.String] answers "Unknown" for exactly the lifetimes that
    [validateLifetime] rejects as undefined, and gives the three constants
    three different names. *)
Theorem Lifetime_String_unknown (lifetime : Lifetime) :
  (Lifetime_String lifetime = "Unknown"%string ↔
   ∀ impl, validateLifetime impl lifetime = Some (UndefinedLifetime lifetime)) ∧
  Lifetime_String Transient = "Transient"%string ∧
  Lifetime_String Scoped = "Scoped"%string ∧
  Lifetime_String Singleton = "Singleton"%string.
Proof.
  split; [|repeat split; reflexivity].
  unfold Lifetime_String, validateLifetime. rewrite knownLifetimes_lookup.
  repeat case_bool_decide; subst; split; try discriminate; try reflexivity.
  all: intros Hall; specialize (Hall (TPointer (TBasic BInt))); discriminate.
Qed.

(** ** registry.go: what registration accepts and what it leaves behind *)

(** The map of a registry is nil or is in the store. *)
Definition registryValid (r : Registry) (w : world) : Prop :=
  match registrations r with
  | None => True
  | Some l => is_Some (registries w !! l)
  end.

Lemma validateLifetime_None_iff (impl : rtype) (lifetime : Lifetime) :
  validateLifetime impl lifetime = None ↔
  lifetime = Transient ∨
  ((lifetime = Scoped ∨ lifetime = Singleton) ∧
   (kindOf impl = Pointer ∨ kindOf impl = Chan)).
Proof.
  unfold validateLifetime. rewrite knownLifetimes_lookup.
  pose proof (isSharable_kind impl) as Hsh.
  destruct (isSharable impl) eqn:Hs.
  - assert (Hk : kindOf impl = Pointer ∨ kindOf impl = Chan) by (apply Hsh; auto).
    repeat case_bool_decide; subst; simpl; split; try discriminate; try tauto;
      intuition (try discriminate; try congruence).
  - assert (Hk : ¬ (kindOf impl = Pointer ∨ kindOf impl = Chan)).
    { intros H. apply Hsh in H. discriminate. }
    repeat case_bool_decide; subst; simpl; split; try discriminate; try tauto;
      intuition (try discriminate; try congruence).
Qed.

Lemma addRegistration_nil target reg w :
  addRegistration {| registrations := None |} target reg w =
  Done {| registrations := Some (length (registries w)) |}
    (withRegistries (registries w ++ [{[target := reg]}]) w).
Proof.
  unfold addRegistration, bind, makeRegistrations, ret, setRegistration. simpl.
  rewrite lookup_app_r by lia. rewrite Nat.sub_diag. simpl.
  unfold withRegistries. simpl. do 2 f_equal.
  rewrite insert_app_r_alt by lia. rewrite Nat.sub_diag. simpl.
  rewrite insert_empty. reflexivity.
Qed.

Lemma addRegistration_ref l regs target reg w :
  registries w !! l = Some regs →
  addRegistration {| registrations := Some l |} target reg w =
  Done {| registrations := Some l |}
    (withRegistries (<[l := <[target := reg]> regs]> (registries w)) w).
Proof.
  intros Hregs. unfold addRegistration, bind, ret, setRegistration. simpl.
  rewrite Hregs. reflexivity.
Qed.

(** After [addRegistration] the returned registry maps [target] to the new
    registration, whatever it mapped it to before. *)
Lemma addRegistration_lookup r target reg w :
  registryValid r w →
  ∃ r' w',
    addRegistration r target reg w = Done r' w' ∧
    registryValid r' w' ∧
    registryLookup r' target w' = Some reg ∧
    (∀ typ, typ ≠ target → registryLookup r' typ w' = registryLookup r typ w) ∧
    (∀ l, registrations r = Some l → r' = r) ∧
    heap w' = heap w ∧ instanceMaps w' = instanceMaps w ∧ invoked w' = invoked w.
Proof.
  destruct r as [[l|]]; unfold registryValid; simpl.
  - intros [regs Hregs]. eexists _, _.
    split; [apply addRegistration_ref; exact Hregs|].
    assert (Hlt : (l < length (registries w))%nat)
      by (eapply lookup_lt_Some; eauto).
    unfold registryLookup. simpl.
    rewrite list_lookup_insert_eq by exact Hlt. simpl.
    split; [eauto|]. split; [apply lookup_insert_eq|].
    split; [|auto].
    intros typ Hne. rewrite Hregs. simpl. apply lookup_insert_ne. auto.
  - intros _. eexists _, _. split; [apply addRegistration_nil|].
    unfold registryLookup. simpl.
    rewrite lookup_app_r by lia. rewrite Nat.sub_diag. simpl.
    split; [eauto|]. split; [apply lookup_singleton_eq|].
    split; [|split; [discriminate|auto]].
    intros typ Hne. apply lookup_singleton_ne. auto.
Qed.

Section RegistrationRules.

Variable StructFields : string → list StructField.
Variable Implements : rtype → rtype → bool.

(** X3.  [RegisterFactory] on a registry whose map is nil or in the store
    always returns, and it returns without error exactly when the
    implementation type is not an interface and is assignable to the target,
    the lifetime is [Transient], or [Scoped] or [Singleton] with a pointer or
    channel implementation type, and the factory is not nil. *)
Theorem RegisterFactory_accepts_iff target impl r lifetime factory w :
  registryValid r w →
  (∃ r' err w',
     RegisterFactory Implements target impl r lifetime factory w =
     Done (r', err) w') ∧
  ((∃ r' w',
      RegisterFactory Implements target impl r lifetime factory w =
      Done (r', None) w') ↔
   kindOf impl ≠ Interface ∧
   AssignableTo Implements impl target = true ∧
   (lifetime = Transient ∨
    ((lifetime = Scoped ∨ lifetime = Singleton) ∧
     (kindOf impl = Pointer ∨ kindOf impl = Chan))) ∧
   factory ≠ None).
Proof.
  intros Hvalid. rewrite <- validateLifetime_None_iff.
  unfold RegisterFactory, validateRegistrationTypes, isConcrete.
  case_bool_decide as Hk; simpl.
  { split; [eauto|]. split; [intros (? & ? & [=])|tauto]. }
  destruct (AssignableTo Implements impl target); simpl.
  2:{ split; [eauto|]. split; [intros (? & ? & [=])|].
      intros (_ & ? & _); discriminate. }
  destruct (validateLifetime impl lifetime) as [e|].
  { split; [eauto|]. split; [intros (? & ? & [=])|].
    intros (_ & _ & ? & _); discriminate. }
  destruct factory as [body|].
  2:{ split; [eauto|]. split; [intros (? & ? & [=])|].
      intros (_ & _ & _ & ?); contradiction. }
  destruct (addRegistration_lookup r target
              {| lifetime := lifetime; factory := body |} w Hvalid)
    as (r' & w' & Hadd & _).
  unfold bind. rewrite Hadd. split; [eauto|].
  split; [|eauto]. intros _. repeat split; auto; discriminate.
Qed.

Lemma RegisterType_unfold target impl registry lifetime w :
  RegisterType StructFields Implements target impl registry lifetime w =
  match getDefaultFactory StructFields Implements impl with
  | (_, Some e) => Done (registry, Some e) w
  | (factory, None) =>
      RegisterFactory Implements target impl registry lifetime
        (GetDefaultFactory StructFields Implements impl).1 w
  end.
Proof.
  unfold RegisterType, GetDefaultFactory.
  destruct (getDefaultFactory StructFields Implements impl) as [f [e|]];
    reflexivity.
Qed.

(** X4.  A registration call that returns an error, through either entry
    point, returns the registry it was given and leaves the store as it
    was: nothing is registered in part. *)
Theorem registration_failure_changes_nothing target impl r lifetime w r' err w' :
  (∃ factory,
     RegisterFactory Implements target impl r lifetime factory w =
     Done (r', Some err) w') ∨
  RegisterType StructFields Implements target impl r lifetime w =
    Done (r', Some err) w' →
  r' = r ∧ w' = w ∧ ∀ typ, registryLookup r' typ w' = registryLookup r typ w.
Proof.
  intros H.
  assert (Hsame : r' = r ∧ w' = w).
  { destruct H as [[factory H]|H].
    - eapply RegisterFactory_error; eauto.
    - rewrite RegisterType_unfold in H.
      destruct (getDefaultFactory StructFields Implements impl) as [f [e|]].
      + injection H as <- _ <-. auto.
      + eapply RegisterFactory_error; eauto. }
  destruct Hsame as [-> ->]. auto.
Qed.

(** X5.  [RegisterType] looks for the default factory first: for an
    implementation type that has none it returns [NoDefaultFactory] for that
    type, whatever the target and the lifetime are, valid or not. *)
Theorem RegisterType_no_default_factory target impl r lifetime w :
  ¬ hasDefaultFactory StructFields Implements impl →
  RegisterType StructFields Implements target impl r lifetime w =
  Done (r, Some (NoDefaultFactory impl)) w.
Proof.
  intros Hno. rewrite RegisterType_unfold.
  destruct (getDefaultFactory_shape StructFields Implements impl)
    as [Hyes| ->]; [contradiction|reflexivity].
Qed.

(** X6.  A second registration for the same target type replaces the first
    without an error: afterwards the registry maps the target to the second
    lifetime and factory, and so does a provider built from it. *)
Theorem RegisterFactory_overwrites target impl1 impl2 r l1 l2 body1 body2
    r1 r2 w w1 w2 :
  RegisterFactory Implements target impl1 r l1 (Some body1) w = Done (r1, None) w1 →
  RegisterFactory Implements target impl2 r1 l2 (Some body2) w1 = Done (r2, None) w2 →
  r2 = r1 ∧
  registryLookup r1 target w1 = Some {| lifetime := l1; factory := body1 |} ∧
  registryLookup r2 target w2 = Some {| lifetime := l2; factory := body2 |} ∧
  ∃ provider w3,
    BuildRootProvider r2 w2 = Done (provider, None) w3 ∧
    mapLookup (provider_registrations provider) target =
      Some {| lifetime := l2; factory := body2 |}.
Proof.
  unfold RegisterFactory.
  destruct (validateRegistrationTypes Implements target impl1); [discriminate|].
  destruct (validateLifetime impl1 l1); [discriminate|].
  destruct (validateRegistrationTypes Implements target impl2); [discriminate|].
  destruct (validateLifetime impl2 l2); [discriminate|].
  intros H1 H2. inv_bind H1. apply ret_Done in H1 as [[= <-] <-].
  inv_bind H2. apply ret_Done in H2 as [[= <-] <-].
  assert (Hv : registryValid r w).
  { unfold registryValid. destruct r as [[l|]]; simpl; [|exact I].
    unfold addRegistration, bind, ret, setRegistration in Hrun. simpl in Hrun.
    destruct (registries w !! l); [eauto|discriminate]. }
  destruct (addRegistration_lookup r target
              {| lifetime := l1; factory := body1 |} w Hv)
    as (r1' & w1' & Hadd1 & Hv1 & Hlk1 & _).
  rewrite Hadd1 in Hrun. injection Hrun as <- <-.
  destruct (addRegistration_lookup r1' target
              {| lifetime := l2; factory := body2 |} w1' Hv1)
    as (r2' & w2' & Hadd2 & Hv2 & Hlk2 & _ & Hsame & _).
  rewrite Hadd2 in Hrun0. injection Hrun0 as <- <-.
  assert (Hr1 : ∃ l, registrations r1' = Some l).
  { unfold registryLookup in Hlk1. destruct (registrations r1'); [eauto|discriminate]. }
  destruct Hr1 as [l Hl]. split; [eapply Hsame; eauto|].
  split; [exact Hlk1|]. split; [exact Hlk2|].
  unfold BuildRootProvider, bind, cloneRegistrations, newInstanceMap, ret.
  unfold registryLookup in Hlk2.
  destruct (registrations r2') as [l2'|]; [|discriminate]. simpl in Hlk2.
  destruct (registries w2' !! l2') as [regs|]; [|discriminate]. simpl in Hlk2.
  eexists _, _. split; [reflexivity|]. exact Hlk2.
Qed.

End RegistrationRules.

(** ** root_provider.go, scope.go: which cache entries a resolve may add *)

(** [keeps P w w']: outside the places [P], every cache entry is in [w'] what
    it was in [w]. *)
Definition keeps (P : nat → rtype → Prop) (w w' : world) : Prop :=
  ∀ m typ, ¬ P m typ → cached m typ w' = cached m typ w.

Lemma keeps_refl P w : keeps P w w.
Proof. intros m typ _. reflexivity. Qed.

Lemma keeps_trans P w1 w2 w3 : keeps P w1 w2 → keeps P w2 w3 → keeps P w1 w3.
Proof. intros H1 H2 m typ Hn. rewrite (H2 m typ Hn). apply H1. exact Hn. Qed.

Lemma run_keeps P resolver body :
  (∀ typ w res w', resolver typ w = Done res w' → keeps P w w') →
  ∀ w res w', run resolver body w = Done res w' → keeps P w w'.
Proof.
  intros Hres.
  induction body as [v err|typ k IH|v k IH|a k IH|a v k IH|];
    intros w res w' H; simpl in H.
  - apply ret_Done in H as [_ <-]. apply keeps_refl.
  - inv_bind H. eapply keeps_trans; [eapply Hres; eauto|eapply IH; eauto].
  - inv_bind H. injection Hrun as <- <-.
    eapply keeps_trans; [|eapply IH; eauto]. intros m typ _. reflexivity.
  - inv_bind H. unfold loadCell in Hrun.
    destruct (heap w !! a); [|discriminate]. injection Hrun as <- <-.
    eapply IH; eauto.
  - inv_bind H. unfold storeCell in Hrun.
    destruct (heap w !! a); [|discriminate]. injection Hrun as <- <-.
    eapply keeps_trans; [|eapply IH; eauto]. intros m typ _. reflexivity.
  - discriminate.
Qed.

Lemma instanceMap_resolve_keeps (P : nat → rtype → Prop) m typ factory resolver :
  P m typ →
  orderly resolver →
  (∀ typ' w res w', resolver typ' w = Done res w' → keeps P w w') →
  ∀ w res w',
    instanceMap_resolve m typ factory resolver w = Done res w' → keeps P w w'.
Proof.
  intros HP Hord Hres w res w' H.
  destruct (cached m typ w) as [v|] eqn:Hc.
  { apply instanceMap_resolve_inv in H as [(? & _ & _ & _ & ->)|(Hn & _)];
      [apply keeps_refl|congruence]. }
  destruct (instanceMap_resolve_miss _ _ _ _ _ _ _ Hord H Hc)
    as (im & w2 & built & w3 & Him & Hmu & Hlk & -> & HR & _ & Hm3 & Hend).
  pose proof (run_keeps P _ _ Hres _ _ _ HR) as Hk.
  assert (Hlt : (m < length (instanceMaps w3))%nat)
    by (eapply lookup_lt_Some; eauto).
  intros m0 typ0 Hn.
  assert (Hw2 : cached m0 typ0
                  {| heap := heap w; registries := registries w;
                     instanceMaps :=
                       <[m := {| mu := true; instances := instances im |}]>
                         (instanceMaps w);
                     invoked := typ :: invoked w |} = cached m0 typ0 w).
  { unfold cached. simpl. destruct (decide (m0 = m)) as [->|Hne].
    - rewrite list_lookup_insert_eq by (eapply lookup_lt_Some; eauto).
      rewrite Him. reflexivity.
    - rewrite list_lookup_insert_ne by done. reflexivity. }
  destruct (decide (m0 = m)) as [->|Hne].
  - assert (Htyp : typ0 ≠ typ) by (intros ->; contradiction).
    unfold cached at 2. rewrite Him. simpl.
    destruct (built.2); destruct Hend as [_ ->]; unfold cached; simpl;
      rewrite list_lookup_insert_eq by exact Hlt; simpl; [reflexivity|].
    rewrite lookup_insert_ne by done.
    destruct (instances im); reflexivity.
  - rewrite <- Hw2, <- (Hk m0 typ0 Hn).
    destruct (built.2); destruct Hend as [_ ->]; unfold cached; simpl;
      rewrite list_lookup_insert_ne by done; reflexivity.
Qed.

(** The lifetime a provider has on record for a type. *)
Definition lifetimeOf (provider : RootProvider) (typ : rtype) : option Lifetime :=
  lifetime <$> mapLookup (provider_registrations provider) typ.

(** Where a resolve from an entry point may add an entry: a [Singleton] type
    in the singleton cache of the provider, a [Scoped] type in the cache of
    the scope. *)
Definition mayStore (provider : RootProvider) (e : entryPoint)
    (m : nat) (typ : rtype) : Prop :=
  (m = singletons provider ∧ lifetimeOf provider typ = Some Singleton) ∨
  match e with
  | AtRoot => False
  | AtScope scope =>
      m = scopedValues scope ∧ lifetimeOf provider typ = Some Scoped
  end.

Lemma RootProvider_Resolve_keeps provider fuel :
  ∀ typ w res w',
    RootProvider_Resolve fuel provider typ w = Done res w' →
    keeps (mayStore provider AtRoot) w w'.
Proof.
  induction fuel as [|fuel IH]; intros typ w res w' H; simpl in H.
  - discriminate.
  - destruct (mapLookup (provider_registrations provider) typ) as [reg|] eqn:Hreg.
    + repeat case_bool_decide.
      * inv_bind H. injection Hrun as <- <-.
        eapply keeps_trans; [|eapply run_keeps; [exact IH|exact H]].
        intros m typ0 _. reflexivity.
      * apply ret_Done in H as [_ <-]. apply keeps_refl.
      * eapply instanceMap_resolve_keeps;
          [|apply RootProvider_Resolve_orderly|exact IH|exact H].
        left. split; [reflexivity|]. unfold lifetimeOf. rewrite Hreg. simpl.
        congruence.
      * discriminate.
    + apply ret_Done in H as [_ <-]. apply keeps_refl.
Qed.

Lemma keeps_weaken (P Q : nat → rtype → Prop) w w' :
  (∀ m typ, P m typ → Q m typ) → keeps P w w' → keeps Q w w'.
Proof. intros HPQ H m typ Hn. apply H. intros HP. apply Hn, HPQ, HP. Qed.

Lemma Scope_Resolve_keeps scope fuel :
  ∀ typ w res w',
    Scope_Resolve fuel scope typ w = Done res w' →
    keeps (mayStore (root scope) (AtScope scope)) w w'.
Proof.
  induction fuel as [|fuel IH]; intros typ w res w' H.
  - discriminate.
  - assert (Hroot : ∀ r, RootProvider_Resolve (S fuel) (root scope) typ w = r →
                         r = Done res w' →
                         keeps (mayStore (root scope) (AtScope scope)) w w').
    { intros r <- Hr. eapply keeps_weaken;
        [|eapply RootProvider_Resolve_keeps; exact Hr].
      intros m typ0 [Hs|[]]. left. exact Hs. }
    cbn [Scope_Resolve] in H.
    destruct (mapLookup (provider_registrations (root scope)) typ) as [reg|] eqn:Hreg.
    + case_bool_decide as Hsc.
      * eapply instanceMap_resolve_keeps;
          [|apply Scope_Resolve_orderly|exact IH|exact H].
        right. split; [reflexivity|]. unfold lifetimeOf. rewrite Hreg. simpl.
        congruence.
      * eapply Hroot; [reflexivity|exact H].
    + eapply Hroot; [reflexivity|exact H].
Qed.

(** X7.  A resolve that returns, from the root or from a scope, adds cache
    entries only where the lifetimes put them: an entry of the singleton
    cache is new only for a type registered [Singleton], an entry of the
    resolving scope's cache only for a type registered [Scoped], and no
    other cache, of another scope or of another provider, changes at all.
    In particular nothing is ever cached for a [Transient] or an unknown
    type. *)
Theorem Resolve_stores_by_lifetime provider e fuel typ w res w' :
  belongs provider e →
  ResolveAt provider e fuel typ w = Done res w' →
  ∀ m typ',
    cached m typ' w' ≠ cached m typ' w →
    (m = singletons provider ∧ lifetimeOf provider typ' = Some Singleton) ∨
    (∃ scope, e = AtScope scope ∧ m = scopedValues scope ∧
              lifetimeOf provider typ' = Some Scoped).
Proof.
  intros Hb H m typ' Hchanged.
  assert (Hk : keeps (mayStore provider e) w w').
  { destruct e as [|scope]; simpl in *.
    - eapply RootProvider_Resolve_keeps; eauto.
    - subst provider. eapply Scope_Resolve_keeps; eauto. }
  destruct (decide (m = singletons provider ∧
                    lifetimeOf provider typ' = Some Singleton)) as [Hs|Hns];
    [left; exact Hs|].
  right. destruct e as [|scope].
  - exfalso. apply Hchanged, Hk. intros [Hs|[]]. contradiction.
  - exists scope. split; [reflexivity|].
    destruct (decide (m = scopedValues scope ∧
                      lifetimeOf provider typ' = Some Scoped)) as [Hsc|Hnsc];
      [exact Hsc|].
    exfalso. apply Hchanged, Hk. intros [Hs|Hsc]; contradiction.
Qed.

(** ** root_provider.go, scope.go: the lifetimes at work *)

Lemma ResolveAt_unknown provider e fuel typ w :
  belongs provider e →
  mapLookup (provider_registrations provider) typ = None →
  ResolveAt provider e (S fuel) typ w = Done (Nil, Some (UnknownType typ)) w.
Proof.
  intros Hb Hnone. destruct e as [|scope]; simpl in Hb.
  - simpl. rewrite Hnone. reflexivity.
  - subst provider. cbn [ResolveAt Scope_Resolve]. rewrite Hnone.
    simpl. rewrite Hnone. reflexivity.
Qed.

(** The store in which a [Transient] factory runs: the call is on record. *)
Definition noted (typ : rtype) (w : world) : world :=
  {| heap := heap w; registries := registries w;
     instanceMaps := instanceMaps w; invoked := typ :: invoked w |}.

Section Transients.

Variable provider : RootProvider.
Variable typ : rtype.
Variable reg : registration.
Hypothesis Hreg : mapLookup (provider_registrations provider) typ = Some reg.
Hypothesis Hlife : lifetime reg = Transient.

(** From the root or from a scope, a [Transient] type is built by its
    factory with the root provider as the resolver. *)
Lemma ResolveAt_transient e fuel w :
  belongs provider e →
  ResolveAt provider e (S fuel) typ w =
  run (RootProvider_Resolve fuel provider) (factory reg) (noted typ w).
Proof using Hreg Hlife.
  intros Hb.
  assert (Hroot : RootProvider_Resolve (S fuel) provider typ w =
                  run (RootProvider_Resolve fuel provider) (factory reg)
                    (noted typ w)).
  { simpl. rewrite Hreg, Hlife. reflexivity. }
  destruct e as [|scope]; [exact Hroot|].
  simpl in Hb. subst provider. cbn [ResolveAt Scope_Resolve].
  rewrite Hreg, Hlife. exact Hroot.
Qed.

End Transients.

(** X8.  Every resolve of a type registered [Transient], from the root or
    from a scope, calls the factory, with the root provider as its resolver,
    and caches nothing for the type.  When the factory returns a newly
    allocated value on each call, two resolves that succeed, with any calls
    on the provider and its scopes between them, return different
    instances. *)
Theorem transient_always_constructs provider typ reg e1 e2 fuel1 fuel2
    v1 v2 w0 w1 w2 w3 :
  mapLookup (provider_registrations provider) typ = Some reg →
  lifetime reg = Transient →
  belongs provider e1 → belongs provider e2 →
  ResolveAt provider e1 fuel1 typ w0 = Done (v1, None) w1 →
  rtc (step provider) w1 w2 →
  ResolveAt provider e2 fuel2 typ w2 = Done (v2, None) w3 →
  run (RootProvider_Resolve (pred fuel1) provider) (factory reg) (noted typ w0)
    = Done (v1, None) w1 ∧
  run (RootProvider_Resolve (pred fuel2) provider) (factory reg) (noted typ w2)
    = Done (v2, None) w3 ∧
  (∀ m, cached m typ w1 = cached m typ w0 ∧ cached m typ w3 = cached m typ w2) ∧
  (allocates (factory reg) → v1 ≠ v2).
Proof.
  intros Hreg Hlife Hb1 Hb2 H1 Hsteps H2.
  destruct fuel1 as [|fuel1]; [destruct e1; discriminate|].
  destruct fuel2 as [|fuel2]; [destruct e2; discriminate|].
  pose proof H1 as H1'. pose proof H2 as H2'.
  rewrite (ResolveAt_transient _ _ _ Hreg Hlife _ _ _ Hb1) in H1'.
  rewrite (ResolveAt_transient _ _ _ Hreg Hlife _ _ _ Hb2) in H2'.
  simpl pred. split; [exact H1'|]. split; [exact H2'|]. split.
  - assert (Hnot : ∀ e m, ¬ mayStore provider e m typ).
    { intros e m [[_ Hl]|Hsc].
      - unfold lifetimeOf in Hl. rewrite Hreg in Hl. simpl in Hl.
        rewrite Hlife in Hl. discriminate.
      - destruct e as [|scope]; [exact Hsc|]. destruct Hsc as [_ Hl].
        unfold lifetimeOf in Hl. rewrite Hreg in Hl. simpl in Hl.
        rewrite Hlife in Hl. discriminate. }
    assert (Hk : ∀ e fuel w w' res, belongs provider e →
              ResolveAt provider e fuel typ w = Done res w' →
              ∀ m, cached m typ w' = cached m typ w).
    { intros e fuel w w' res Hb H m.
      destruct e as [|scope]; simpl in Hb, H.
      - eapply RootProvider_Resolve_keeps; [exact H|apply (Hnot AtRoot)].
      - subst provider.
        eapply Scope_Resolve_keeps; [exact H|apply (Hnot (AtScope scope))]. }
    intros m. split;
      [exact (Hk e1 _ w0 w1 _ Hb1 H1 m)|exact (Hk e2 _ w2 w3 _ Hb2 H2 m)].
  - intros Halloc.
    destruct (Halloc _ _ _ _ (RootProvider_Resolve_orderly _ _) H1')
      as (t1 & a1 & -> & Ha1).
    destruct (Halloc _ _ _ _ (RootProvider_Resolve_orderly _ _) H2')
      as (t2 & a2 & -> & Ha2).
    pose proof (steps_heap _ _ _ Hsteps). simpl in Ha1, Ha2.
    intros [= _ Heq]. lia.
Qed.

(** X9.  A type that is not registered: [Resolve] on the root and on every
    scope returns [UnknownType] for it and leaves the store alone, and the
    typed [Resolve[T]] passes that on wrapped, as an error that is both
    [ErrResolverError] and [ErrUnknownType]. *)
Theorem Resolve_unknown_type Implements provider e fuel typ w :
  belongs provider e →
  mapLookup (provider_registrations provider) typ = None →
  ResolveAt provider e (S fuel) typ w = Done (Nil, Some (UnknownType typ)) w ∧
  Resolve Implements typ (Some (ResolveAt provider e (S fuel))) w =
    Done (zeroValue typ, Some (resolverError (UnknownType typ))) w ∧
  errorsIs (resolverError (UnknownType typ)) ErrResolverError = true ∧
  errorsIs (resolverError (UnknownType typ)) ErrUnknownType = true.
Proof.
  intros Hb Hnone.
  pose proof (ResolveAt_unknown provider e fuel typ w Hb Hnone) as H.
  split; [exact H|]. split; [|split; reflexivity].
  unfold Resolve, bind. rewrite H. reflexivity.
Qed.

(** X10.  A provider keeps the registrations it was built with: a type
    registered on the registry after [BuildRootProvider] is unknown to the
    provider and to its scopes. *)
Theorem provider_ignores_later_registration Implements r target impl lifetime
    factory provider err r' w w1 w2 :
  BuildRootProvider r w = Done (provider, err) w1 →
  registryLookup r target w = None →
  RegisterFactory Implements target impl r lifetime factory w1 =
    Done (r', None) w2 →
  registryLookup r' target w2 ≠ None ∧
  ∀ e fuel, belongs provider e →
    ResolveAt provider e (S fuel) target w2 =
    Done (Nil, Some (UnknownType target)) w2.
Proof.
  intros Hbuild Hnone Hreg.
  apply BuildRootProvider_snapshot in Hbuild as (_ & Hsnap & _ & Hregs & _).
  split.
  - unfold RegisterFactory in Hreg.
    destruct (validateRegistrationTypes Implements target impl); [discriminate|].
    destruct (validateLifetime impl lifetime); [discriminate|].
    destruct factory as [body|]; [|discriminate].
    inv_bind Hreg. apply ret_Done in Hreg as [[= <-] <-].
    assert (Hv : registryValid r w1).
    { unfold registryValid. destruct r as [[l|]]; simpl; [|exact I].
      unfold addRegistration, bind, ret, setRegistration in Hrun. simpl in Hrun.
      destruct (registries w1 !! l); [eauto|discriminate]. }
    destruct (addRegistration_lookup r target
                {| lifetime := lifetime; factory := body |} w1 Hv)
      as (r'' & w'' & Hadd & _ & Hlk & _).
    rewrite Hadd in Hrun. injection Hrun as <- <-. rewrite Hlk. discriminate.
  - intros e fuel Hb. apply ResolveAt_unknown; [exact Hb|].
    rewrite Hsnap. exact Hnone.
Qed.

(** The lock of the cache at [m] is held. *)
Definition locked (m : nat) (w : world) : Prop :=
  ∃ im, instanceMaps w !! m = Some im ∧ mu im = true.

Lemma instanceMap_resolve_locked m typ factory resolver w :
  locked m w → instanceMap_resolve m typ factory resolver w = Deadlock.
Proof.
  intros (im & Him & Hmu). unfold instanceMap_resolve, bind, instanceMap_get.
  rewrite Him, Hmu. reflexivity.
Qed.

Lemma instanceMap_resolve_first_call m typ dep k resolver w :
  unlocked m w → cached m typ w = None →
  (∀ w', locked m w' → resolver dep w' = Deadlock) →
  instanceMap_resolve m typ (CallResolve dep k) resolver w = Deadlock.
Proof.
  intros (im & Him & Hmu) Hc Hdead.
  unfold cached in Hc. rewrite Him in Hc. simpl in Hc.
  unfold instanceMap_resolve, bind at 1, instanceMap_get, readInstance.
  rewrite Him, Hmu, Hc. simpl.
  unfold bind at 1, Lock. rewrite Him, Hmu.
  unfold bind at 1, readInstance. simpl.
  rewrite list_lookup_insert_eq by (eapply lookup_lt_Some; eauto). simpl.
  rewrite Hc. simpl.
  unfold bind at 1, noteInvoked. simpl.
  unfold bind at 1. simpl run. unfold bind at 1.
  rewrite Hdead; [reflexivity|].
  eexists. simpl. split;
    [apply list_lookup_insert_eq; eapply lookup_lt_Some; eauto|reflexivity].
Qed.

(** X11.  The factory of a [Transient] or [Singleton] type gets the root
    provider as its resolver, also when the type is resolved through a
    scope; that resolver answers [ScopedValueRequestedFromRootProvider] for
    every [Scoped] type, so such a factory cannot obtain a scoped value. *)
Theorem root_lifetimes_cannot_use_scoped provider typ reg e fuel w :
  mapLookup (provider_registrations provider) typ = Some reg →
  lifetime reg = Transient ∨ lifetime reg = Singleton →
  belongs provider e →
  ∃ resolver : Resolver,
    ResolveAt provider e (S (S fuel)) typ w =
      (if bool_decide (lifetime reg = Transient)
       then run resolver (factory reg) (noted typ w)
       else instanceMap_resolve (singletons provider) typ (factory reg)
              resolver w) ∧
    ∀ dep depReg w',
      mapLookup (provider_registrations provider) dep = Some depReg →
      lifetime depReg = Scoped →
      resolver dep w' =
      Done (Nil, Some (ScopedValueRequestedFromRootProvider dep)) w'.
Proof.
  intros Hreg Hlife Hb. exists (RootProvider_Resolve (S fuel) provider).
  split.
  - assert (Hroot : RootProvider_Resolve (S (S fuel)) provider typ w =
        (if bool_decide (lifetime reg = Transient)
         then run (RootProvider_Resolve (S fuel) provider) (factory reg)
                (noted typ w)
         else instanceMap_resolve (singletons provider) typ (factory reg)
                (RootProvider_Resolve (S fuel) provider) w)).
    { cbn [RootProvider_Resolve]. rewrite Hreg.
      destruct Hlife as [Hl|Hl]; rewrite Hl; reflexivity. }
    destruct e as [|scope]; [exact Hroot|].
    simpl in Hb. subst provider. cbn [ResolveAt Scope_Resolve]. rewrite Hreg.
    rewrite bool_decide_eq_false_2; [exact Hroot|].
    destruct Hlife as [Hl|Hl]; rewrite Hl; discriminate.
  - intros dep depReg w' Hdep Hscoped. simpl. rewrite Hdep, Hscoped.
    reflexivity.
Qed.

(** X12.  While a singleton is under construction the singleton cache is
    locked, and every resolve of a [Singleton] type blocks on that lock.  So
    a singleton whose factory starts by resolving a singleton of the same
    provider, in the cache already or not, never returns. *)
Theorem singleton_dependency_deadlocks provider typ reg dep depReg k e fuel w :
  mapLookup (provider_registrations provider) typ = Some reg →
  lifetime reg = Singleton →
  factory reg = CallResolve dep k →
  mapLookup (provider_registrations provider) dep = Some depReg →
  lifetime depReg = Singleton →
  belongs provider e →
  unlocked (singletons provider) w →
  cached (singletons provider) typ w = None →
  ResolveAt provider e (S (S fuel)) typ w = Deadlock ∧
  ∀ e' fuel' w',
    belongs provider e' → locked (singletons provider) w' →
    ResolveAt provider e' (S fuel') dep w' = Deadlock.
Proof.
  intros Hreg Hlife Hbody Hdep Hdlife Hb Hfree Hc.
  assert (Hdead : ∀ fuel' w', locked (singletons provider) w' →
            RootProvider_Resolve (S fuel') provider dep w' = Deadlock).
  { intros fuel' w' Hl. simpl. rewrite Hdep, Hdlife. simpl.
    apply instanceMap_resolve_locked. exact Hl. }
  assert (Hroot : RootProvider_Resolve (S (S fuel)) provider typ w = Deadlock).
  { cbn [RootProvider_Resolve]. rewrite Hreg, Hlife, Hbody.
    simpl bool_decide. cbn iota.
    apply instanceMap_resolve_first_call; [exact Hfree|exact Hc|].
    intros w' Hl. exact (Hdead fuel w' Hl). }
  split.
  - destruct e as [|scope]; [exact Hroot|].
    simpl in Hb. subst provider. cbn [ResolveAt Scope_Resolve].
    rewrite Hreg, Hlife. exact Hroot.
  - intros e' fuel' w' Hb' Hl. destruct e' as [|scope]; [apply Hdead; exact Hl|].
    simpl in Hb'. subst provider. cbn [ResolveAt Scope_Resolve].
    rewrite Hdep, Hdlife. apply Hdead. exact Hl.
Qed.

(** X13.  The same for one scope: a [Scoped] type whose factory starts by
    resolving a [Scoped] type never returns from [Scope.Resolve], because
    the factory runs under the lock of the scope's cache and is given the
    scope itself as its resolver. *)
Theorem scoped_dependency_deadlocks scope typ reg dep depReg k fuel w :
  mapLookup (provider_registrations (root scope)) typ = Some reg →
  lifetime reg = Scoped →
  factory reg = CallResolve dep k →
  mapLookup (provider_registrations (root scope)) dep = Some depReg →
  lifetime depReg = Scoped →
  unlocked (scopedValues scope) w →
  cached (scopedValues scope) typ w = None →
  Scope_Resolve (S (S fuel)) scope typ w = Deadlock.
Proof.
  intros Hreg Hlife Hbody Hdep Hdlife Hfree Hc.
  assert (Hdead : ∀ fuel' w', locked (scopedValues scope) w' →
            Scope_Resolve (S fuel') scope dep w' = Deadlock).
  { intros fuel' w' Hl. cbn [Scope_Resolve]. rewrite Hdep, Hdlife.
    simpl bool_decide. cbn iota. apply instanceMap_resolve_locked. exact Hl. }
  cbn [Scope_Resolve]. rewrite Hreg, Hlife, Hbody. simpl bool_decide. cbn iota.
  apply instanceMap_resolve_first_call; [exact Hfree|exact Hc|].
  intros w' Hl. exact (Hdead fuel w' Hl).
Qed.

(** X14.  What every resolve that returns leaves as it found it: each cache
    has the lock state it had, each cached instance is still cached under
    its type, the registration maps are untouched and no cell of the heap
    has gone. *)
Theorem Resolve_keeps_locks_and_instances provider e fuel typ w res w' :
  belongs provider e →
  ResolveAt provider e fuel typ w = Done res w' →
  (∀ m, unlocked m w → unlocked m w') ∧
  (∀ m, locked m w → locked m w') ∧
  (∀ m typ' v, cached m typ' w = Some v → cached m typ' w' = Some v) ∧
  length (instanceMaps w') = length (instanceMaps w) ∧
  registries w' = registries w ∧
  (length (heap w) ≤ length (heap w'))%nat.
Proof.
  intros Hb H.
  pose proof (ResolveAt_orderly _ _ _ _ _ _ _ H) as Hev.
  split; [intros m; apply evolves_unlocked; exact Hev|].
  split.
  { intros m (im & Him & Hmu). destruct Hev as (_ & _ & Hmaps & _).
    destruct (Hmaps m im Him) as (im' & Him' & Hmu' & _).
    exists im'. split; [exact Him'|congruence]. }
  split; [intros m typ' v; apply evolves_cached_entry; exact Hev|].
  split; [|split; apply Hev].
  clear Hev. revert H.
  assert (Hlen : ∀ (resolver : Resolver),
            (∀ t w r w', resolver t w = Done r w' →
               length (instanceMaps w') = length (instanceMaps w)) →
            ∀ body w r w', run resolver body w = Done r w' →
              length (instanceMaps w') = length (instanceMaps w)).
  { intros resolver Hres body.
    induction body as [v err|t k IH|v k IH|a k IH|a v k IH|];
      intros w0 r w0' H; simpl in H.
    - apply ret_Done in H as [_ <-]. reflexivity.
    - inv_bind H. rewrite (IH _ _ _ _ _ H). eapply Hres; eauto.
    - inv_bind H. injection Hrun as <- <-. apply IH in H. exact H.
    - inv_bind H. unfold loadCell in Hrun.
      destruct (heap w0 !! a); [|discriminate]. injection Hrun as <- <-.
      eapply IH; eauto.
    - inv_bind H. unfold storeCell in Hrun.
      destruct (heap w0 !! a); [|discriminate]. injection Hrun as <- <-.
      apply IH in H. exact H.
    - discriminate. }
  assert (Hres : ∀ m t f (resolver : Resolver),
            orderly resolver →
            (∀ t w r w', resolver t w = Done r w' →
               length (instanceMaps w') = length (instanceMaps w)) →
            ∀ w r w', instanceMap_resolve m t f resolver w = Done r w' →
              length (instanceMaps w') = length (instanceMaps w)).
  { intros m t f resolver Hord Hr w0 r w0' H.
    destruct (cached m t w0) as [v|] eqn:Hc.
    { apply instanceMap_resolve_inv in H as [(? & _ & _ & _ & ->)|(Hn & _)];
        [reflexivity|congruence]. }
    destruct (instanceMap_resolve_miss _ _ _ _ _ _ _ Hord H Hc)
      as (im & w2 & built & w3 & _ & _ & _ & -> & HR & _ & _ & Hend).
    apply (Hlen _ Hr) in HR. simpl in HR. rewrite length_insert in HR.
    destruct (built.2); destruct Hend as [_ ->]; simpl;
      rewrite length_insert; exact HR. }
  assert (Hroot : ∀ fuel' t w r w',
            RootProvider_Resolve fuel' provider t w = Done r w' →
            length (instanceMaps w') = length (instanceMaps w)).
  { induction fuel' as [|fuel' IH]; intros t w0 r w0' H; simpl in H;
      [discriminate|].
    destruct (mapLookup (provider_registrations provider) t) as [reg|].
    - repeat case_bool_decide.
      + inv_bind H. injection Hrun as <- <-. apply (Hlen _ IH) in H. exact H.
      + apply ret_Done in H as [_ <-]. reflexivity.
      + eapply Hres; [apply RootProvider_Resolve_orderly|exact IH|exact H].
      + discriminate.
    - apply ret_Done in H as [_ <-]. reflexivity. }
  destruct e as [|scope]; simpl; [apply Hroot|].
  intros H.
  assert (Hscope : ∀ fuel' t w r w',
            root scope = provider →
            Scope_Resolve fuel' scope t w = Done r w' →
            length (instanceMaps w') = length (instanceMaps w)).
  { induction fuel' as [|fuel' IH]; intros t w0 r w0' Hr H0;
      [discriminate|].
    cbn [Scope_Resolve] in H0. rewrite Hr in H0.
    destruct (mapLookup (provider_registrations provider) t) as [reg|].
    - case_bool_decide.
      + eapply Hres; [apply Scope_Resolve_orderly| |exact H0].
        intros t' wa ra wb Hq. eapply IH; eauto.
      + eapply Hroot; eauto.
    - eapply Hroot; eauto. }
  eapply Hscope; [exact Hb|exact H].
Qed.

(** ** scope.go: nested scopes *)

(** X15.  [Scope.NewScope] makes a scope of the same root that shares nothing
    with the scope it was called on: its cache is new, empty and unlocked,
    every existing cache is as before, and the first resolve of a [Scoped]
    type on it runs the factory, with the new scope as resolver, whatever
    the parent scope holds for that type. *)
Theorem Scope_NewScope_independent scope w :
  ∃ child w',
    Scope_NewScope scope w = Done child w' ∧
    root child = root scope ∧
    scopedValues child = length (instanceMaps w) ∧
    instanceMaps w' = instanceMaps w ++ [{| mu := false; instances := None |}] ∧
    heap w' = heap w ∧ registries w' = registries w ∧ invoked w' = invoked w ∧
    ∀ typ reg fuel built w3,
      mapLookup (provider_registrations (root scope)) typ = Some reg →
      lifetime reg = Scoped →
      run (Scope_Resolve fuel child) (factory reg)
        (underLock (scopedValues child) typ w') = Done built w3 →
      ∃ w4,
        Scope_Resolve (S fuel) child typ w' =
          Done (match built.2 with
                | Some err => (Nil, Some err)
                | None => (built.1, None)
                end) w4 ∧
        invoked w4 = invoked w3.
Proof.
  pose (child := {| root := root scope;
                    scopedValues := length (instanceMaps w) |}).
  pose (w' := withInstanceMaps
                (instanceMaps w ++ [{| mu := false; instances := None |}]) w).
  exists child, w'. split; [reflexivity|].
  do 6 (split; [reflexivity|]).
  intros typ reg fuel built w3 Hreg Hlife HR.
  assert (Hnew : instanceMaps w' !! scopedValues child
                 = Some {| mu := false; instances := None |}).
  { simpl. rewrite lookup_app_r by lia. rewrite Nat.sub_diag. reflexivity. }
  destruct (instanceMap_resolve_build (scopedValues child) typ (factory reg)
              (Scope_Resolve fuel child) w' built w3)
    as (im & Him & Heq).
  - apply Scope_Resolve_orderly.
  - eexists. split; [exact Hnew|reflexivity].
  - unfold cached. rewrite Hnew. reflexivity.
  - exact HR.
  - assert (Hstep : Scope_Resolve (S fuel) child typ w' =
                     instanceMap_resolve (scopedValues child) typ (factory reg)
                       (Scope_Resolve fuel child) w').
    { cbn [Scope_Resolve]. change (root child) with (root scope).
      rewrite Hreg, Hlife. reflexivity. }
    rewrite Hstep, Heq.
    destruct (built.2); eexists; split; reflexivity.
Qed.

(** ** instance_map.go: [values] *)

(** [instanceMap.values]: the instances of the cache, under the read lock.
    Go leaves the order of a map iteration open; the order here is that of
    [map_to_list]. *)
Definition instanceMap_values (m : nat) : M (list any) :=
  λ w, match instanceMaps w !! m with
       | None => Panicked
       | Some im =>
           if mu im then Deadlock
           else Done (match instances im with
                      | None => []
                      | Some cache => (map_to_list cache).*2
                      end) w
       end.

Lemma instanceMap_values_elem m w :
  unlocked m w →
  ∃ values,
    instanceMap_values m w = Done values w ∧
    ∀ v, v ∈ values ↔ ∃ typ, cached m typ w = Some v.
Proof.
  intros (im & Him & Hmu). unfold instanceMap_values, cached.
  rewrite Him, Hmu. eexists. split; [reflexivity|]. simpl.
  intros v. destruct (instances im) as [cache|]; simpl.
  - rewrite list_elem_of_fmap. split.
    + intros ([typ x] & -> & Hin). apply elem_of_map_to_list in Hin. eauto.
    + intros [typ Hin]. exists (typ, v). split; [reflexivity|].
      apply elem_of_map_to_list. exact Hin.
  - split; [intros Hin; inversion Hin|intros [typ Hin]; discriminate].
Qed.

(** X16.  [values] of a scope's cache, the list that [Scope.Close] goes
    through, holds exactly the instances cached in that scope; an instance
    that [Scope.Resolve] returned for a [Scoped] type is in it, and reading
    it changes nothing. *)
Theorem values_holds_resolved scope typ reg fuel v w w' :
  mapLookup (provider_registrations (root scope)) typ = Some reg →
  lifetime reg = Scoped →
  Scope_Resolve fuel scope typ w = Done (v, None) w' →
  ∃ values,
    instanceMap_values (scopedValues scope) w' = Done values w' ∧
    v ∈ values ∧
    ∀ x, x ∈ values ↔ ∃ typ', cached (scopedValues scope) typ' w' = Some x.
Proof.
  intros Hreg Hlife H.
  destruct (Scope_Resolve_scoped_stored _ _ _ Hreg Hlife _ _ _ _ _ eq_refl H)
    as (Hfree & Hc & _).
  destruct (instanceMap_values_elem _ _ Hfree) as (values & Hv & Helem).
  exists values. split; [exact Hv|]. split; [|exact Helem].
  apply Helem. eauto.
Qed.

(** ** default_factory.go: which types have a default factory *)

(** The loop [for elemType.Kind() == reflect.Pointer] of the earlier
    [getDefaultFactory]: the type under all pointer levels. *)
Fixpoint pointerBase (type_ : rtype) : rtype :=
  match type_ with
  | TPointer elem => pointerBase elem
  | _ => type_
  end.

(** [getDefaultFactory] as the earlier [registry.go] has it: it derives no
    factory, it only says whether there is one. *)
Definition getDefaultFactory_earlier (type_ : rtype) : option error :=
  let elemType := pointerBase type_ in
  match kindOf elemType with
  | Uintptr | Func | Interface | UnsafePointer =>
      Some (NoDefaultFactory type_)
  | _ => None
  end.

(** [RegisterType] as the earlier [registry.go] has it: the types are
    validated first; nothing is registered. *)
Definition RegisterType_earlier (Implements : rtype → rtype → bool)
    (target impl : rtype) (registry : Registry) (lifetime : Lifetime)
    : Registry * option error :=
  match validateRegistrationTypes Implements target impl with
  | Some err => (registry, Some err)
  | None =>
      match getDefaultFactory_earlier impl with
      | Some err => (registry, Some err)
      | None =>
          match validateLifetime impl lifetime with
          | Some err => (registry, Some err)
          | None => (registry, None)
          end
      end
  end.

Section Availability.

Variable StructFields : string → list StructField.
Variable Implements : rtype → rtype → bool.

Local Abbreviation gdf := (getDefaultFactory StructFields Implements).

Lemma getDefaultFactory_error (typ : rtype) :
  (gdf typ).2 = getDefaultFactory_earlier typ.
Proof.
  induction typ as [b|n e IH|e IH|s|s|k IHk e IHe|e IH|e IH|s];
    try reflexivity.
  - destruct b; reflexivity.
  - simpl gdf. unfold getDefaultFactory_earlier in *. simpl pointerBase.
    destruct (getDefaultFactory_shape StructFields Implements e)
      as [[body He]|He]; rewrite He in *; simpl in *.
    + destruct (kindOf (pointerBase e)); try discriminate; reflexivity.
    + destruct (kindOf (pointerBase e)); try discriminate; reflexivity.
Qed.

(** X17.  The recursive [getDefaultFactory] fails exactly where the earlier,
    loop-based [getDefaultFactory] fails, and with the same error: a type has
    a default factory unless the type under all its pointer levels is a
    [uintptr], a function, an interface or an [unsafe.Pointer], and the
    [NoDefaultFactory] error carries the type that was asked about. *)
Theorem getDefaultFactory_availability (typ : rtype) :
  (gdf typ).2 = getDefaultFactory_earlier typ ∧
  (hasDefaultFactory StructFields Implements typ ↔
   kindOf (pointerBase typ) ≠ Uintptr ∧ kindOf (pointerBase typ) ≠ Func ∧
   kindOf (pointerBase typ) ≠ Interface ∧
   kindOf (pointerBase typ) ≠ UnsafePointer) ∧
  (¬ hasDefaultFactory StructFields Implements typ →
   gdf typ = (None, Some (NoDefaultFactory typ))).
Proof.
  pose proof (getDefaultFactory_error typ) as Herr.
  split; [exact Herr|]. split.
  - unfold hasDefaultFactory.
    destruct (getDefaultFactory_shape StructFields Implements typ)
      as [[body He]|He]; rewrite He in Herr; simpl in Herr;
      unfold getDefaultFactory_earlier in Herr.
    + split; [intros _|eauto].
      destruct (kindOf (pointerBase typ)); try discriminate;
        repeat split; discriminate.
    + split; [intros [body Hb]; congruence|].
      intros (H1 & H2 & H3 & H4).
      destruct (kindOf (pointerBase typ)); try discriminate; contradiction.
  - intros Hno.
    destruct (getDefaultFactory_shape StructFields Implements typ)
      as [Hyes|He]; [contradiction|exact He].
Qed.

(** X18.  The two versions of [RegisterType] return the same error, or none,
    whenever the implementation type has a default factory or the types of
    the registration are valid; otherwise the earlier one reports the invalid
    types and the later one [NoDefaultFactory]. *)
Theorem RegisterType_versions target impl r lifetime w :
  registryValid r w →
  ∃ r' err w',
    RegisterType StructFields Implements target impl r lifetime w =
      Done (r', err) w' ∧
    (hasDefaultFactory StructFields Implements impl ∨
     validateRegistrationTypes Implements target impl = None →
     err = (RegisterType_earlier Implements target impl r lifetime).2) ∧
    (¬ hasDefaultFactory StructFields Implements impl →
     validateRegistrationTypes Implements target impl ≠ None →
     err = Some (NoDefaultFactory impl) ∧
     (RegisterType_earlier Implements target impl r lifetime).2 =
       validateRegistrationTypes Implements target impl).
Proof.
  intros Hvalid. rewrite RegisterType_unfold.
  pose proof (getDefaultFactory_error impl) as Herr.
  unfold RegisterType_earlier.
  destruct (getDefaultFactory_shape StructFields Implements impl)
    as [[body He]|He].
  - assert (Hhas : hasDefaultFactory StructFields Implements impl)
      by (exists body; exact He).
    rewrite He in *. simpl in Herr. rewrite <- Herr.
    unfold GetDefaultFactory. rewrite He. simpl.
    unfold RegisterFactory.
    destruct (validateRegistrationTypes Implements target impl) as [e|].
    { eexists _, _, _. split; [reflexivity|]. split; [reflexivity|].
      intros Hno. contradiction. }
    destruct (validateLifetime impl lifetime) as [e|].
    { eexists _, _, _. split; [reflexivity|]. split; [reflexivity|].
      intros Hno. contradiction. }
    destruct (addRegistration_lookup r target
                {| lifetime := lifetime;
                   factory := andThen (call (Some body)) (λ v err,
                     match err with
                     | Some e => Return (zeroValue impl) (Some e)
                     | None => if typeAssert Implements v impl
                               then Return v None else PanicP
                     end) |} w Hvalid)
      as (r' & w' & Hadd & _).
    unfold bind. simpl call in Hadd. rewrite Hadd.
    eexists _, _, _. split; [reflexivity|]. split; [reflexivity|].
    intros Hno. contradiction.
  - assert (Hno : ¬ hasDefaultFactory StructFields Implements impl).
    { intros [body Hb]. congruence. }
    rewrite He in *. simpl in Herr. rewrite <- Herr.
    eexists _, _, _. split; [reflexivity|]. split.
    + intros [Hyes|Hv]; [contradiction|]. rewrite Hv. reflexivity.
    + intros _ Hv. split; [reflexivity|].
      destruct (validateRegistrationTypes Implements target impl);
        [reflexivity|contradiction].
Qed.








End Availability.

(** ** resolve.go: the typed facade *)

Section Facade.

Variable StructFields : string → list StructField.
Variable Implements : rtype → rtype → bool.

(** X21.  What [Resolve[T]] returns: without an error, the value is the one
    the resolver returned, it is not nil and it passes the assertion to [T];
    with an error, the value is the zero value of [T]. *)
Theorem Resolve_typed_result T resolver w v err w' :
  Resolve Implements T resolver w = Done (v, err) w' →
  (err = None →
   typeAssert Implements v T = true ∧ v ≠ Nil ∧
   ∃ r, resolver = Some r ∧ r T w = Done (v, None) w') ∧
  (err ≠ None → v = zeroValue T).
Proof.
  unfold Resolve. destruct resolver as [r|].
  - intros H. inv_bind H. destruct a as [rv [re|]]; simpl in H.
    + apply ret_Done in H as [[= <- <-] <-]. split; [discriminate|auto].
    + destruct (typeAssert Implements rv T) eqn:Hassert;
        apply ret_Done in H as [[= <- <-] <-].
      * split; [|intros Hn; contradiction]. intros _.
        split; [exact Hassert|]. split; [|eauto].
        intros ->. discriminate.
      * split; [discriminate|auto].
  - intros H. apply ret_Done in H as [[= <- <-] <-].
    split; [discriminate|auto].
Qed.

(** X22.  [Resolve[T]] does not call a nil resolver and returns
    [ErrNilResolver]; an error of the resolver comes back wrapped so that
    [errors.Is] finds both [ErrResolverError] and whatever the original
    error is. *)
Theorem Resolve_errors T w :
  Resolve Implements T None w = Done (zeroValue T, Some ErrNilResolver) w ∧
  ∀ (r : Resolver) v e w',
    r T w = Done (v, Some e) w' →
    Resolve Implements T (Some r) w =
      Done (zeroValue T, Some (resolverError e)) w' ∧
    errorsIs (resolverError e) ErrResolverError = true ∧
    ∀ target, errorsIs e target = true →
              errorsIs (resolverError e) target = true.
Proof.
  split; [reflexivity|]. intros r v e w' H.
  split; [unfold Resolve, bind; rewrite H; reflexivity|].
  split; [reflexivity|].
  intros target Ht. simpl. rewrite Ht. apply orb_true_r.
Qed.


End Facade.

(** ** The [Is] methods *)

(** The typed errors of the package, those with an [Is] method and no
    [Unwrap]. *)
Definition sentinelOf (err : error) : option error :=
  match err with
  | InvalidResolution _ _ => Some ErrInvalidResolution
  | NonConcreteImplementation _ => Some ErrNonConcreteImplementation
  | InvalidImplementation _ _ => Some ErrInvalidImplementation
  | UndefinedLifetime _ => Some ErrUndefinedLifetime
  | UnsharableType _ _ => Some ErrUnsharableType
  | NoDefaultFactory _ => Some ErrNoDefaultFactory
  | UnknownType _ => Some ErrUnknownType
  | ScopedValueRequestedFromRootProvider _ =>
      Some ErrScopedValueRequestedFromRootProvider
  | _ => None
  end.

(** The values made with [errors.New] in the package. *)
Definition isSentinel (err : error) : bool :=
  match err with
  | ErrNilResolver | ErrResolverError | ErrInvalidResolution
  | ErrNonConcreteImplementation | ErrInvalidImplementation
  | ErrUndefinedLifetime | ErrUnsharableType | ErrNoDefaultFactory
  | ErrNilFactory | ErrUnknownType
  | ErrScopedValueRequestedFromRootProvider => true
  | _ => false
  end.

(** X24.  [errors.Is] sorts the package's errors into their categories
    without overlap: a typed error matches its own sentinel and no other, a
    sentinel matches only itself, and a wrapped resolver error matches
    [ErrResolverError] and, besides, exactly what the error it wraps
    matches. *)
Theorem errorsIs_categories (err target : error) :
  isSentinel target = true →
  (∀ s, sentinelOf err = Some s →
        (errorsIs err target = true ↔ target = s)) ∧
  (isSentinel err = true → (errorsIs err target = true ↔ target = err)) ∧
  (∀ wrapped, err = resolverError wrapped →
     (errorsIs err target = true ↔
      target = ErrResolverError ∨ errorsIs wrapped target = true)).
Proof.
  intros Ht. split; [|split].
  - intros s Hs.
    destruct err; try discriminate; injection Hs as <-;
      destruct target; try discriminate; simpl;
      split; (reflexivity || discriminate).
  - intros Hs.
    destruct err; try discriminate;
      destruct target; try discriminate; simpl;
      split; (reflexivity || discriminate).
  - intros wrapped ->. cbn [errorsIs error_Is].
    rewrite !orb_true_iff, !bool_decide_eq_true.
    destruct target; try discriminate;
      intuition (try discriminate; auto).
Qed.

(** * Concrete runs for the rest of the package *)

Definition exEmptyRegistry : Registry := {| registrations := None |}.

Lemma RegisterFactory_accepts_iff_witness :
  (∃ r' err w',
     RegisterFactory exImplements exPtr exPtr exEmptyRegistry Singleton
       (Some exDefaultBody) (exWorld []) = Done (r', err) w') ∧
  ((∃ r' w',
      RegisterFactory exImplements exPtr exPtr exEmptyRegistry Singleton
        (Some exDefaultBody) (exWorld []) = Done (r', None) w') ↔
   kindOf exPtr ≠ Interface ∧
   AssignableTo exImplements exPtr exPtr = true ∧
   (Singleton = Transient ∨
    ((Singleton = Scoped ∨ Singleton = Singleton) ∧
     (kindOf exPtr = Pointer ∨ kindOf exPtr = Chan))) ∧
   Some exDefaultBody ≠ None).
Proof.
  apply (RegisterFactory_accepts_iff exImplements exPtr exPtr exEmptyRegistry
           Singleton (Some exDefaultBody) (exWorld [])).
  exact I.
Defined.

Lemma registration_failure_changes_nothing_witness :
  exEmptyRegistry = exEmptyRegistry ∧ exWorld [] = exWorld [] ∧
  ∀ typ, registryLookup exEmptyRegistry typ (exWorld []) =
         registryLookup exEmptyRegistry typ (exWorld []).
Proof.
  apply (registration_failure_changes_nothing exFields exImplements
           exStruct exStruct exEmptyRegistry Scoped (exWorld [])
           exEmptyRegistry (UnsharableType exStruct Scoped) (exWorld [])).
  left. exists None. vm_compute. reflexivity.
Defined.

Definition exFuncPtr : rtype := TPointer (TFunc "func()").

Lemma RegisterType_no_default_factory_witness :
  RegisterType exFields exImplements exReader exFuncPtr exEmptyRegistry
    Scoped (exWorld []) =
  Done (exEmptyRegistry, Some (NoDefaultFactory exFuncPtr)) (exWorld []).
Proof.
  apply (RegisterType_no_default_factory exFields exImplements exReader
           exFuncPtr exEmptyRegistry Scoped (exWorld [])).
  intros [body H]. vm_compute in H. discriminate H.
Defined.

Definition exOnce : outcome (Registry * option error) :=
  RegisterFactory exImplements exPtr exPtr exEmptyRegistry Singleton
    (Some exDefaultBody) (exWorld []).

Definition exTwice : outcome (Registry * option error) :=
  RegisterFactory exImplements exPtr exPtr exRegistry Transient
    (Some exSharedBody) (worldOf exOnce (exWorld [])).

Lemma RegisterFactory_overwrites_witness :
  exRegistry = exRegistry ∧
  registryLookup exRegistry exPtr (worldOf exOnce (exWorld [])) =
    Some {| lifetime := Singleton; factory := exDefaultBody |} ∧
  registryLookup exRegistry exPtr (worldOf exTwice (exWorld [])) =
    Some {| lifetime := Transient; factory := exSharedBody |} ∧
  ∃ provider w3,
    BuildRootProvider exRegistry (worldOf exTwice (exWorld [])) =
      Done (provider, None) w3 ∧
    mapLookup (provider_registrations provider) exPtr =
      Some {| lifetime := Transient; factory := exSharedBody |}.
Proof.
  apply (RegisterFactory_overwrites exImplements exPtr exPtr exPtr
           exEmptyRegistry Singleton Transient exDefaultBody exSharedBody
           exRegistry exRegistry (exWorld [])
           (worldOf exOnce (exWorld [])) (worldOf exTwice (exWorld []))).
  - vm_compute. reflexivity.
  - vm_compute. reflexivity.
Defined.

Lemma Resolve_stores_by_lifetime_witness :
  (0%nat = singletons exSingleton ∧
   lifetimeOf exSingleton exPtr = Some Singleton) ∨
  (∃ scope, AtRoot = AtScope scope ∧ 0%nat = scopedValues scope ∧
            lifetimeOf exSingleton exPtr = Some Scoped).
Proof.
  apply (Resolve_stores_by_lifetime exSingleton AtRoot 3 exPtr (exWorld [])
           (Ref exPtr 0, None) exAfterRoot).
  - exact I.
  - vm_compute. reflexivity.
  - vm_compute. discriminate.
Defined.

Definition exTransient : RootProvider := exProvider Transient exDefaultBody.

Definition exTransientFirst : world :=
  worldOf (RootProvider_Resolve 2 exTransient exPtr (exWorld [])) (exWorld []).

Definition exTransientSecond : world :=
  worldOf (RootProvider_Resolve 2 exTransient exPtr exTransientFirst)
    exTransientFirst.

Lemma transient_always_constructs_witness :
  run (RootProvider_Resolve (pred 2) exTransient)
    (factory (exRegistration Transient exDefaultBody)) (noted exPtr (exWorld []))
    = Done (Ref exPtr 0, None) exTransientFirst ∧
  run (RootProvider_Resolve (pred 2) exTransient)
    (factory (exRegistration Transient exDefaultBody))
    (noted exPtr exTransientFirst)
    = Done (Ref exPtr 1, None) exTransientSecond ∧
  (∀ m, cached m exPtr exTransientFirst = cached m exPtr (exWorld []) ∧
        cached m exPtr exTransientSecond = cached m exPtr exTransientFirst) ∧
  (allocates (factory (exRegistration Transient exDefaultBody)) →
   Ref exPtr 0 ≠ Ref exPtr 1).
Proof.
  apply (transient_always_constructs exTransient exPtr
           (exRegistration Transient exDefaultBody) AtRoot AtRoot 2 2
           (Ref exPtr 0) (Ref exPtr 1)
           (exWorld []) exTransientFirst exTransientFirst exTransientSecond).
  - vm_compute. reflexivity.
  - reflexivity.
  - exact I.
  - exact I.
  - vm_compute. reflexivity.
  - apply rtc_refl.
  - vm_compute. reflexivity.
Defined.

Lemma Resolve_unknown_type_witness :
  ResolveAt exSingleton (AtScope (exScope Singleton exDefaultBody 1)) 1
    exStruct (exWorld []) =
    Done (Nil, Some (UnknownType exStruct)) (exWorld []) ∧
  Resolve exImplements exStruct
    (Some (ResolveAt exSingleton (AtScope (exScope Singleton exDefaultBody 1)) 1))
    (exWorld []) =
    Done (zeroValue exStruct, Some (resolverError (UnknownType exStruct)))
      (exWorld []) ∧
  errorsIs (resolverError (UnknownType exStruct)) ErrResolverError = true ∧
  errorsIs (resolverError (UnknownType exStruct)) ErrUnknownType = true.
Proof.
  apply (Resolve_unknown_type exImplements exSingleton
           (AtScope (exScope Singleton exDefaultBody 1)) 0 exStruct (exWorld [])).
  - reflexivity.
  - vm_compute. reflexivity.
Defined.

Definition exEarlyProvider : RootProvider :=
  {| provider_registrations := None; singletons := 3 |}.

Definition exEarlyWorld : world :=
  worldOf (BuildRootProvider exEmptyRegistry (exWorld [])) (exWorld []).

Definition exLateWorld : world :=
  worldOf (RegisterFactory exImplements exPtr exPtr exEmptyRegistry Transient
             (Some exDefaultBody) exEarlyWorld) exEarlyWorld.

Lemma provider_ignores_later_registration_witness :
  registryLookup exRegistry exPtr exLateWorld ≠ None ∧
  ∀ e fuel, belongs exEarlyProvider e →
    ResolveAt exEarlyProvider e (S fuel) exPtr exLateWorld =
    Done (Nil, Some (UnknownType exPtr)) exLateWorld.
Proof.
  apply (provider_ignores_later_registration exImplements exEmptyRegistry
           exPtr exPtr Transient (Some exDefaultBody) exEarlyProvider None
           exRegistry (exWorld []) exEarlyWorld exLateWorld).
  - vm_compute. reflexivity.
  - reflexivity.
  - vm_compute. reflexivity.
Defined.

(** A transient struct with one field, a pointer that is registered
    [Scoped]. *)
Definition exHolder : rtype := TStruct "holder".

Definition exHolderFields : string → list StructField :=
  λ _, [{| Name := "Dep"; PkgPath := EmptyString; Type_ := exPtr |}].

Definition exHolderBody : factoryFunc :=
  call (GetDefaultFactory exHolderFields exImplements exHolder).1.

Definition exMixed : RootProvider :=
  {| provider_registrations :=
       Some (<[exHolder := exRegistration Transient exHolderBody]>
               {[exPtr := exRegistration Scoped exDefaultBody]});
     singletons := 0 |}.

Definition exMixedScope : Scope := {| root := exMixed; scopedValues := 1 |}.

Lemma root_lifetimes_cannot_use_scoped_witness :
  ∃ resolver : Resolver,
    ResolveAt exMixed (AtScope exMixedScope) 3 exHolder (exWorld []) =
      (if bool_decide (lifetime (exRegistration Transient exHolderBody) = Transient)
       then run resolver (factory (exRegistration Transient exHolderBody))
              (noted exHolder (exWorld []))
       else instanceMap_resolve (singletons exMixed) exHolder
              (factory (exRegistration Transient exHolderBody)) resolver
              (exWorld [])) ∧
    ∀ dep depReg w',
      mapLookup (provider_registrations exMixed) dep = Some depReg →
      lifetime depReg = Scoped →
      resolver dep w' =
      Done (Nil, Some (ScopedValueRequestedFromRootProvider dep)) w'.
Proof.
  apply (root_lifetimes_cannot_use_scoped exMixed exHolder
           (exRegistration Transient exHolderBody) (AtScope exMixedScope) 1
           (exWorld [])).
  - vm_compute. reflexivity.
  - left. reflexivity.
  - reflexivity.
Defined.

(** Resolved through a scope, the struct still cannot get its scoped field,
    while the field type itself resolves on that scope. *)
Example exHolder_from_scope :
  (∃ w', Scope_Resolve 3 exMixedScope exHolder (exWorld []) =
         Done (Zero exHolder,
               Some (resolverError
                       (ScopedValueRequestedFromRootProvider exPtr))) w') ∧
  (∃ w', Scope_Resolve 3 exMixedScope exPtr (exWorld []) =
         Done (Ref exPtr 0, None) w').
Proof. split; eexists; vm_compute; reflexivity. Qed.

Lemma singleton_dependency_deadlocks_witness :
  ResolveAt exDependent AtRoot 3 (TPointer exPtr) (exWorld []) = Deadlock ∧
  ∀ e' fuel' w',
    belongs exDependent e' → locked (singletons exDependent) w' →
    ResolveAt exDependent e' (S fuel') exPtr w' = Deadlock.
Proof.
  apply (singleton_dependency_deadlocks exDependent (TPointer exPtr)
           (exRegistration Singleton exDependentBody) exPtr
           (exRegistration Singleton exDefaultBody)
           (λ dep err,
              match err with
              | Some e => Return (Zero (TPointer exPtr)) (Some e)
              | None => AllocCell dep (λ a, Return (Ref (TPointer exPtr) a) None)
              end)
           AtRoot 1 (exWorld [])).
  - vm_compute. reflexivity.
  - reflexivity.
  - reflexivity.
  - vm_compute. reflexivity.
  - reflexivity.
  - exact I.
  - eexists. split; reflexivity.
  - reflexivity.
Defined.

Definition exScopedPair : RootProvider :=
  {| provider_registrations :=
       Some (<[TPointer exPtr := exRegistration Scoped exDependentBody]>
               {[exPtr := exRegistration Scoped exDefaultBody]});
     singletons := 0 |}.

Definition exScopedPairScope : Scope :=
  {| root := exScopedPair; scopedValues := 1 |}.

Lemma scoped_dependency_deadlocks_witness :
  Scope_Resolve 3 exScopedPairScope (TPointer exPtr) (exWorld []) = Deadlock.
Proof.
  apply (scoped_dependency_deadlocks exScopedPairScope (TPointer exPtr)
           (exRegistration Scoped exDependentBody) exPtr
           (exRegistration Scoped exDefaultBody)
           (λ dep err,
              match err with
              | Some e => Return (Zero (TPointer exPtr)) (Some e)
              | None => AllocCell dep (λ a, Return (Ref (TPointer exPtr) a) None)
              end)
           1 (exWorld [])).
  - vm_compute. reflexivity.
  - reflexivity.
  - reflexivity.
  - vm_compute. reflexivity.
  - reflexivity.
  - eexists. split; reflexivity.
  - reflexivity.
Defined.

Lemma Resolve_keeps_locks_and_instances_witness :
  (∀ m, unlocked m (exWorld []) → unlocked m exAfterRoot) ∧
  (∀ m, locked m (exWorld []) → locked m exAfterRoot) ∧
  (∀ m typ' v, cached m typ' (exWorld []) = Some v →
               cached m typ' exAfterRoot = Some v) ∧
  length (instanceMaps exAfterRoot) = length (instanceMaps (exWorld [])) ∧
  registries exAfterRoot = registries (exWorld []) ∧
  (length (heap (exWorld [])) ≤ length (heap exAfterRoot))%nat.
Proof.
  apply (Resolve_keeps_locks_and_instances exSingleton AtRoot 3 exPtr
           (exWorld []) (Ref exPtr 0, None) exAfterRoot).
  - exact I.
  - vm_compute. reflexivity.
Defined.

Lemma values_holds_resolved_witness :
  ∃ values,
    instanceMap_values (scopedValues exScopeA) exAfterA = Done values exAfterA ∧
    Ref exPtr 0 ∈ values ∧
    ∀ x, x ∈ values ↔ ∃ typ', cached (scopedValues exScopeA) typ' exAfterA = Some x.
Proof.
  apply (values_holds_resolved exScopeA exPtr
           (exRegistration Scoped exDefaultBody) 3 (Ref exPtr 0)
           (exWorld []) exAfterA).
  - vm_compute. reflexivity.
  - reflexivity.
  - vm_compute. reflexivity.
Defined.

Lemma RegisterType_versions_witness :
  ∃ r' err w',
    RegisterType exFields exImplements exReader exReadWriter exEmptyRegistry
      Transient (exWorld []) = Done (r', err) w' ∧
    (hasDefaultFactory exFields exImplements exReadWriter ∨
     validateRegistrationTypes exImplements exReader exReadWriter = None →
     err = (RegisterType_earlier exImplements exReader exReadWriter
              exEmptyRegistry Transient).2) ∧
    (¬ hasDefaultFactory exFields exImplements exReadWriter →
     validateRegistrationTypes exImplements exReader exReadWriter ≠ None →
     err = Some (NoDefaultFactory exReadWriter) ∧
     (RegisterType_earlier exImplements exReader exReadWriter
        exEmptyRegistry Transient).2 =
       validateRegistrationTypes exImplements exReader exReadWriter).
Proof.
  apply (RegisterType_versions exFields exImplements exReader exReadWriter
           exEmptyRegistry Transient (exWorld [])).
  exact I.
Defined.

(** The earlier [RegisterType] gives the interface implementation the error
    that the package's test expects. *)
Example exRegisterType_earlier_interface :
  RegisterType_earlier exImplements exReader exReadWriter exEmptyRegistry
    Transient
  = (exEmptyRegistry, Some (NonConcreteImplementation exReadWriter)).
Proof. reflexivity. Qed.

Lemma Resolve_typed_result_witness :
  (@None error = None →
   typeAssert exImplements (Ref exPtr 0) exPtr = true ∧ Ref exPtr 0 ≠ Nil ∧
   ∃ r, Some (RootProvider_Resolve 3 exSingleton) = Some r ∧
        r exPtr (exWorld []) = Done (Ref exPtr 0, None) exAfterRoot) ∧
  (@None error ≠ None → Ref exPtr 0 = zeroValue exPtr).
Proof.
  apply (Resolve_typed_result exImplements exPtr
           (Some (RootProvider_Resolve 3 exSingleton)) (exWorld [])
           (Ref exPtr 0) None exAfterRoot).
  vm_compute. reflexivity.
Defined.



Lemma errorsIs_categories_witness :
  (∀ s, sentinelOf (NoDefaultFactory exPtr) = Some s →
        (errorsIs (NoDefaultFactory exPtr) ErrNoDefaultFactory = true ↔
         ErrNoDefaultFactory = s)) ∧
  (isSentinel (NoDefaultFactory exPtr) = true →
   (errorsIs (NoDefaultFactory exPtr) ErrNoDefaultFactory = true ↔
    ErrNoDefaultFactory = NoDefaultFactory exPtr)) ∧
  (∀ wrapped, NoDefaultFactory exPtr = resolverError wrapped →
     (errorsIs (NoDefaultFactory exPtr) ErrNoDefaultFactory = true ↔
      ErrNoDefaultFactory = ErrResolverError ∨
      errorsIs wrapped ErrNoDefaultFactory = true)).
Proof.
  apply (errorsIs_categories (NoDefaultFactory exPtr) ErrNoDefaultFactory).
  reflexivity.
Defined.
